(** * dfss.process: process-capability statistics

    A shallow embedding of [src/dfss/process.py] ([calculate_d2],
    [calculate_process], [calculate_p_value]) together with the numpy,
    pandas and scipy operations these three functions call.

    Number model.  A Python float is a value of [float]: a real number, or
    one of the IEEE special values [+inf], [-inf], [nan].  Arithmetic on
    finite values is exact (rounding to binary64 is not modelled) and zero
    carries no sign (it behaves as [+0.0]).  Division by zero, [inf - inf],
    [0 * inf] and the propagation of [nan] follow IEEE 754, which is what
    numpy and pandas expose.

    The standard normal distribution function [scipy.special.ndtr], which
    [scipy.stats.norm.cdf] evaluates, is not part of the repository; it is a
    variable [ndtr : R -> R] of the section that holds the three functions,
    constrained where needed by [0 < ndtr x < 1].  Where a numerical value
    is at stake (the value of [calculate_d2 2]) it is characterised on
    [[-20, 20]] as the function with value [1/2] at [0] whose derivative is
    the standard normal density.

    Python ints that the program treats as counts or exponents ([n],
    [window], [len(samples)]) are [nat]: pandas rejects a negative window
    before computing anything, and a negative exponent is outside the
    contract of [calculate_d2]. *)

From Stdlib Require Import Reals RList Machin Lra Lia.
From Stdlib Require Import List Arith ZArith Bool Permutation ClassicalEpsilon.
Import ListNotations.
Local Open Scope R_scope.

(* ================================================================== *)
(** * Floats with IEEE special values *)
(* ================================================================== *)

Inductive float : Type :=
| Fin (r : R)
| PInf
| NInf
| NaN.

Definition is_nan (x : float) : bool :=
  match x with NaN => true | _ => false end.

Definition Rltb (a b : R) : bool := if Rlt_dec a b then true else false.

Definition Reqb0 (a : R) : bool := if Req_dec_T a 0 then true else false.

(** [x == y] on floats; false when either side is [nan]. *)
Definition feq (x y : float) : bool :=
  match x, y with
  | Fin a, Fin b => if Req_dec_T a b then true else false
  | PInf, PInf | NInf, NInf => true
  | _, _ => false
  end.

(** [x < y] on floats; any comparison with [nan] is false. *)
Definition flt (x y : float) : bool :=
  match x, y with
  | NaN, _ | _, NaN => false
  | Fin a, Fin b => Rltb a b
  | NInf, NInf => false
  | NInf, _ => true
  | _, NInf => false
  | PInf, _ => false
  | _, PInf => true
  end.

Definition fopp (x : float) : float :=
  match x with
  | Fin r => Fin (- r)
  | PInf => NInf
  | NInf => PInf
  | NaN => NaN
  end.

Definition fadd (x y : float) : float :=
  match x, y with
  | NaN, _ | _, NaN => NaN
  | Fin a, Fin b => Fin (a + b)
  | PInf, NInf | NInf, PInf => NaN
  | PInf, _ | _, PInf => PInf
  | NInf, _ | _, NInf => NInf
  end.

Definition fsub (x y : float) : float := fadd x (fopp y).

(** The infinity carrying the sign of the real [r]; [nan] when [r = 0]. *)
Definition inf_signed (r : R) : float :=
  if Rltb 0 r then PInf else if Rltb r 0 then NInf else NaN.

Definition fmul (x y : float) : float :=
  match x, y with
  | NaN, _ | _, NaN => NaN
  | Fin a, Fin b => Fin (a * b)
  | PInf, Fin b | Fin b, PInf => inf_signed b
  | NInf, Fin b | Fin b, NInf => inf_signed (- b)
  | PInf, PInf | NInf, NInf => PInf
  | PInf, NInf | NInf, PInf => NInf
  end.

(** Division.  A zero divisor is [+0.0]: [a / 0] is the infinity of the sign
    of [a], and [0 / 0] is [nan]. *)
Definition fdiv (x y : float) : float :=
  match x, y with
  | NaN, _ | _, NaN => NaN
  | Fin a, Fin b => if Reqb0 b then inf_signed a else Fin (a / b)
  | Fin _, PInf | Fin _, NInf => Fin 0
  | PInf, Fin b => if Rltb b 0 then NInf else PInf
  | NInf, Fin b => if Rltb b 0 then PInf else NInf
  | PInf, _ | NInf, _ => NaN
  end.

(** [x ** n] for a non-negative integer exponent; [x ** 0] is [1.0] for
    every [x], [nan] included. *)
Definition fpow (x : float) (n : nat) : float :=
  match n with
  | O => Fin 1
  | S _ =>
      match x with
      | Fin r => Fin (r ^ n)
      | PInf => PInf
      | NInf => if Nat.even n then PInf else NInf
      | NaN => NaN
      end
  end.

Definition fsqrt (x : float) : float :=
  match x with
  | Fin r => if Rltb r 0 then NaN else Fin (sqrt r)
  | PInf => PInf
  | NInf | NaN => NaN
  end.

Declare Scope float_scope.
Delimit Scope float_scope with float.
Bind Scope float_scope with float.
Infix "+" := fadd : float_scope.
Infix "-" := fsub : float_scope.
Infix "*" := fmul : float_scope.
Infix "/" := fdiv : float_scope.
Infix "**" := fpow (at level 30, right associativity) : float_scope.

(** Python int to float. *)
Definition of_nat (n : nat) : float := Fin (INR n).

(* ================================================================== *)
(** * Python builtins *)
(* ================================================================== *)

(** [min(iterable)]: the first least item, found with [item < current].
    The empty case raises [ValueError] in Python; the program only calls
    [min] on a two-element list. *)
Definition py_min (l : list float) : float :=
  match l with
  | [] => NaN
  | x :: t => fold_left (fun cur item => if flt item cur then item else cur) t x
  end.

(* ================================================================== *)
(** * numpy *)
(* ================================================================== *)

(** [np.sum]: the additive reduction, from [0.0]. *)
Definition np_sum (a : list float) : float := fold_left fadd a (Fin 0).

(** [np.mean(a)]: [sum / count]; [nan] is not skipped, and the empty array
    gives [0 / 0 = nan]. *)
Definition np_mean (a : list float) : float :=
  (np_sum a / of_nat (length a))%float.

(** [np.minimum]: the binary minimum that propagates [nan]. *)
Definition np_minimum (x y : float) : float :=
  if is_nan x || is_nan y then NaN else if flt y x then y else x.

(** [np.min(a)]: reduction with [np.minimum].  The empty case raises in
    numpy; the program passes two-element lists. *)
Definition np_min (a : list float) : float :=
  match a with
  | [] => NaN
  | x :: t => fold_left np_minimum t x
  end.

(** Replace the last entry of an array: [y[-1] = v]. *)
Fixpoint set_last (y : list float) (v : float) : list float :=
  match y with
  | [] => []
  | [_] => [v]
  | a :: t => a :: set_last t v
  end.

(** [np.linspace(start, stop, num, retstep=True)] with [endpoint=True]:
    [step = (stop - start) / (num - 1)], the samples are
    [arange(num) * step + start] (computed as [arange(num) / div * delta]
    when the step is zero, and with [step = nan] when [num <= 1]), and the
    last one is set to [stop]. *)
Definition linspace (start stop : float) (num : nat) : list float * float :=
  let div := (num - 1)%nat in
  let y := map of_nat (seq 0 num) in
  let delta := (stop - start)%float in
  let '(y, step) :=
    if (0 <? div)%nat then
      let step := (delta / of_nat div)%float in
      if feq step (Fin 0)
      then (map (fun v => (v / of_nat div * delta)%float) y, step)
      else (map (fun v => (v * step)%float) y, step)
    else (map (fun v => (v * delta)%float) y, NaN) in
  let y := map (fun v => (v + start)%float) y in
  (if (1 <? num)%nat then set_last y stop else y, step).

(** [np.trapz(y, dx=dx)]: [(dx * (y[1:] + y[:-1]) / 2.0).sum()]. *)
Definition trapz (y : list float) (dx : float) : float :=
  np_sum (map (fun p => (dx * (fst p + snd p) / Fin 2)%float)
              (combine (tl y) (removelast y))).

(* ================================================================== *)
(** * pandas Series of floats *)
(* ================================================================== *)

Definition Series := list float.

Definition dropna (s : Series) : Series :=
  filter (fun x => negb (is_nan x)) s.

(** [Series.mean()] ([skipna=True]): sum of the non-[nan] entries over their
    count; [nan] when there is none. *)
Definition series_mean (s : Series) : float :=
  let v := dropna s in
  (np_sum v / of_nat (length v))%float.

(** [Series.std()] ([skipna=True], [ddof=1]): the square root of
    [sum((avg - x)**2) / (count - 1)]; [nan] when [count <= 1]. *)
Definition series_std (s : Series) : float :=
  let v := dropna s in
  let count := length v in
  if (count <=? 1)%nat then NaN
  else
    let avg := (np_sum v / of_nat count)%float in
    let sqr := map (fun x => ((avg - x) ** 2)%float) v in
    fsqrt (np_sum sqr / of_nat (count - 1))%float.

Definition fmin (x y : float) : float := if flt y x then y else x.
Definition fmax (x y : float) : float := if flt x y then y else x.

(** Reduction of a list of non-[nan] values; [nan] for the empty list. *)
Definition reduce (op : float -> float -> float) (v : list float) : float :=
  match v with
  | [] => NaN
  | x :: t => fold_left op t x
  end.

(** [Series.min()] and [Series.max()] ([skipna=True]). *)
Definition series_min (s : Series) : float := reduce fmin (dropna s).
Definition series_max (s : Series) : float := reduce fmax (dropna s).

(** Elementwise [a - b] of two Series over the same index. *)
Definition series_sub (a b : Series) : Series :=
  map (fun p => (fst p - snd p)%float) (combine a b).

(** Elementwise [a / c] of a Series by a scalar. *)
Definition series_div (a : Series) (c : float) : Series :=
  map (fun x => (x / c)%float) a.

(** [Series.rolling(window)]: a fixed window of [window] rows, right-aligned
    and with [min_periods = window]. *)
Record Rolling : Type := mkRolling { obj : Series; win : nat }.

Definition rolling (s : Series) (window : nat) : Rolling :=
  mkRolling s window.

(** The rows [i - window + 1 .. i] of the Series. *)
Definition window_at (r : Rolling) (i : nat) : list float :=
  firstn (win r) (skipn (S i - win r) (obj r)).

(** A rolling aggregation: row [i] holds the aggregate of its window when
    the window is non-empty, complete and free of [nan], and [nan]
    otherwise. *)
Definition rolling_agg (op : float -> float -> float) (r : Rolling) : Series :=
  map (fun i =>
         if (0 <? win r)%nat && (win r <=? S i)%nat
            && negb (existsb is_nan (window_at r i))
         then reduce op (window_at r i)
         else NaN)
      (seq 0 (length (obj r))).

Definition rolling_max (r : Rolling) : Series := rolling_agg fmax r.
Definition rolling_min (r : Rolling) : Series := rolling_agg fmin r.

(* ================================================================== *)
(** * scipy.stats.norm *)
(* ================================================================== *)

(** A frozen normal distribution [stats.norm(loc, scale)]. *)
Record rv_frozen : Type := norm { loc : float; scale : float }.

(** A logistic curve: a concrete distribution function with values strictly
    between 0 and 1, used to instantiate [ndtr] in examples. *)
Definition logistic (x : R) : R := / (1 + exp (- x)).

Section Process.

(** The standard normal distribution function on the reals. *)
Variable ndtr : R -> R.

(** [scipy.special.ndtr] on floats. *)
Definition ndtr_f (z : float) : float :=
  match z with
  | Fin r => Fin (ndtr r)
  | PInf => Fin 1
  | NInf => Fin 0
  | NaN => NaN
  end.

(** [dist.cdf(x)]: [ndtr((x - loc) / scale)], and [nan] unless
    [scale > 0]. *)
Definition cdf (dist : rv_frozen) (x : float) : float :=
  if flt (Fin 0) (scale dist)
  then ndtr_f ((x - loc dist) / scale dist)%float
  else NaN.

(* ================================================================== *)
(** * dfss.process *)
(* ================================================================== *)

(** [calculate_d2(n)], process.py lines 6-22. *)
Definition calculate_d2 (n : nat) : float :=
  let standard_normal := norm (Fin 0) (Fin 1) in
  let '(approx_x, dx) := linspace (Fin (-20)) (Fin 20) 1001 in
  let sample_vals :=
    map (fun x =>
           (Fin 1
            - (Fin 1 - cdf standard_normal x) ** n
            - cdf standard_normal x ** n)%float)
        approx_x in
  trapz sample_vals dx.

(** The result of [calculate_process]: the pandas Series with index
    ['sample size', 'mean', 'std', 'std_within', 'ppk', 'cpk', 'min',
    'max']. *)
Record ProcessRecord : Type := mkProcess {
  sample_size : nat;
  mean : float;
  std : float;
  std_within : float;
  ppk : float;
  cpk : float;
  min : float;
  max : float
}.

(** [calculate_process(samples, LSL, USL, window)], process.py lines
    24-64. *)
Definition calculate_process (samples : Series) (LSL USL : float)
    (window : nat) : ProcessRecord :=
  let mu := series_mean samples in
  let std := series_std samples in
  let r := rolling samples window in
  let Rbar := series_sub (rolling_max r) (rolling_min r) in
  let std_within := series_mean (series_div Rbar (calculate_d2 window)) in
  let ppk := np_min [ ((USL - mu) / (Fin 3 * std))%float;
                      ((mu - LSL) / (Fin 3 * std))%float ] in
  let cpk := np_min [ ((USL - mu) / (Fin 3 * std_within))%float;
                      ((mu - LSL) / (Fin 3 * std_within))%float ] in
  mkProcess (length samples) mu std std_within ppk cpk
            (series_min samples) (series_max samples).

(** [calculate_p_value(mean, std, samples)], process.py lines 66-82. *)
Definition calculate_p_value (mean std : float) (samples : list float)
    : float :=
  let normal := norm mean std in
  let p_value :=
    np_mean (map (fun _s =>
                    (Fin 2 * py_min [ (Fin 1 - cdf normal _s)%float;
                                      cdf normal _s ])%float)
                 samples) in
  p_value.

End Process.

(* ================================================================== *)
(** * Reference definitions on the reals *)
(* ================================================================== *)

(** These follow the words of the specification and are what the program is
    compared with. *)

Definition Rsum (l : list R) : R := fold_right Rplus 0 l.

(** The arithmetic mean of a list of reals. *)
Definition arith_mean (l : list R) : R := Rsum l / INR (length l).

(** Every contiguous window of size [w], sliding by one position. *)
Fixpoint windows (w : nat) (l : list R) : list (list R) :=
  match l with
  | [] => []
  | _ :: t => if (w <=? length l)%nat then firstn w l :: windows w t else []
  end.

(** Max of window minus min of window. *)
Definition window_range (v : list R) : R := MaxRlist v - MinRlist v.

(** The absolute differences of successive samples: the moving ranges. *)
Fixpoint moving_ranges (l : list R) : list R :=
  match l with
  | a :: (b :: _) as t => Rabs (b - a) :: moving_ranges t
  | _ => []
  end.

(** The sample variance and standard deviation, with denominator
    [length - 1]. *)
Definition sample_var (l : list R) : R :=
  Rsum (map (fun x => (arith_mean l - x) ^ 2) l) / INR (length l - 1).

Definition sample_std (l : list R) : R := sqrt (sample_var l).

(** The integrand of d2 at a point where the distribution function is
    [p]. *)
Definition d2_integrand (p : R) (n : nat) : R := 1 - (1 - p) ^ n - p ^ n.

(** The trapezoidal rule with constant spacing [h]. *)
Fixpoint Rtrapz (y : list R) (h : R) : R :=
  match y with
  | a :: (b :: _) as t => h * (b + a) / 2 + Rtrapz t h
  | _ => 0
  end.

(** The grid of [calculate_d2]: 1001 points from -20 to 20. *)
Definition d2_step : R := (20 - -20) / INR 1000.

Definition d2_grid : list R :=
  map (fun i => INR i * d2_step + -20) (seq 0 1000) ++ [20].

(** [calculate_d2] in real arithmetic: the trapezoidal rule applied to the
    integrand on the grid. *)
Definition d2_real (ndtr : R -> R) (n : nat) : R :=
  Rtrapz (map (fun x => d2_integrand (ndtr x) n) d2_grid) d2_step.

(** The two-sided tail probability of a sample under the fitted normal. *)
Definition two_sided_tail (ndtr : R -> R) (m s x : R) : R :=
  2 * Rmin (1 - ndtr ((x - m) / s)) (ndtr ((x - m) / s)).

(* ================================================================== *)
(** * The standard normal law on the integration range *)
(* ================================================================== *)

(** The numerical value of [calculate_d2(2)] depends on which function
    [ndtr] is.  The standard normal distribution function is characterised,
    on the range [[-20, 20]] of the grid, by its derivative, the standard
    normal density, and by its value one half at zero. *)

Definition std_pdf (x : R) : R := exp (- (x ^ 2 / 2)) / sqrt (2 * PI).

Definition is_normal_cdf (F : R -> R) : Prop :=
  F 0 = 1 / 2
  /\ forall x, -20 <= x <= 20 -> derivable_pt_lim F x (std_pdf x).

(** A function with that derivative and that value: it exists because the
    density is continuous. *)
Definition normal_cdf : R -> R :=
  epsilon (inhabits (fun _ : R => 0)) is_normal_cdf.

(** The distance of [F] from one half, in units of [1 / sqrt (2 PI)]: for
    the normal law, the integral of [exp (- t^2 / 2)] from 0 to [x]. *)
Definition dev (F : R -> R) (x : R) : R := sqrt (2 * PI) * (F x - 1 / 2).

(** Partial sums of the series of [exp (- y)]. *)
Fixpoint exp_neg_poly (n : nat) (y : R) : R :=
  match n with
  | O => 1
  | S k => exp_neg_poly k y + (- y) ^ n / INR (fact n)
  end.

(** Terms and partial sums of the series of the integral of
    [exp (- t^2 / 2)]: the k-th term is
    [(-1/2)^k x^(2k+1) / (k! (2k+1))]. *)
Definition gauss_term (k : nat) (x : R) : R :=
  (- (1 / 2)) ^ k * x ^ (2 * k + 1) / (INR (fact k) * INR (2 * k + 1)).

Fixpoint gauss_poly (n : nat) (x : R) : R :=
  match n with
  | O => gauss_term 0 x
  | S k => gauss_poly k x + gauss_term n x
  end.

(** Absolute value of the k-th term, for [x >= 0]. *)
Definition gauss_abs (k : nat) (x : R) : R :=
  (1 / 2) ^ k * x ^ (2 * k + 1) / (INR (fact k) * INR (2 * k + 1)).

(** ** Evaluation in fixed point

    The partial sums are evaluated on integers with directed rounding: the
    integer [z] stands for [z / 2^64], and every state holds a lower and an
    upper bound. *)

Definition fx_scale : Z := 2 ^ 64.

Definition fx (z : Z) : R := IZR z / IZR fx_scale.

(** The same for a product of two fixed-point numbers. *)
Definition fx2 (z : Z) : R := IZR z / (IZR fx_scale * IZR fx_scale).

(** Division rounded up. *)
Definition cdiv (a b : Z) : Z := (- ((- a) / b))%Z.

(** Bounds on the k-th term ([tlo], [thi]) and on the k-th partial sum
    ([slo], [shi]) at the point [j / 25]. *)
Record gstate : Type := mkG { tlo : Z; thi : Z; slo : Z; shi : Z }.

Definition ginit (j : Z) : gstate :=
  let lo := (j * fx_scale / 25)%Z in
  let hi := cdiv (j * fx_scale) 25 in
  mkG lo hi lo hi.

(** From index [k] to index [k + 1]: the term is multiplied by
    [x^2 (2k+1) / (2 (k+1) (2k+3))] and enters the sum with the sign of
    [(-1)^(k+1)]. *)
Definition gstep (j : Z) (k : nat) (s : gstate) : gstate :=
  let kz := Z.of_nat k in
  let num := (j * j * (2 * kz + 1))%Z in
  let den := (1250 * (kz + 1) * (2 * kz + 3))%Z in
  let tl := (tlo s * num / den)%Z in
  let th := cdiv (thi s * num) den in
  if Nat.even k
  then mkG tl th (slo s - th) (shi s - tl)
  else mkG tl th (slo s + tl) (shi s + th).

Fixpoint giter (j : Z) (n : nat) : gstate :=
  match n with
  | O => ginit j
  | S k => gstep j k (giter j k)
  end.

(** The (odd) number of terms summed at the point [j / 25]. *)
Definition gauss_order (j : Z) : nat :=
  S (2 * (6 + Z.to_nat (j * j / 700))).

(** Bounds on [dev F (j / 25)]: an odd partial sum from below, the even one
    before it from above. *)
Definition dev_bounds (j : Z) : Z * Z :=
  let s := giter j (gauss_order j) in (slo s, (shi s + thi s)%Z).

(** Up to [x = 6] (index 150) the series is summed; beyond, [dev] has grown
    from its value at 6 by at most [14 exp (-18)]. *)
Definition central : Z := 150.

Definition exp18_hi : Z := cdiv (2 * fx_scale) 100000000.

Definition tail_slack : Z := (14 * exp18_hi)%Z.

(** Bounds on the square of a number between [fst b] and [snd b]. *)
Definition sq_range (b : Z * Z) : Z * Z :=
  ((Z.max (fst b) 0) ^ 2, (Z.max (- fst b) (snd b)) ^ 2)%Z.

Definition tail_range : Z * Z :=
  sq_range (fst (dev_bounds central),
            (snd (dev_bounds central) + tail_slack)%Z).

Definition grid_range (tail : Z * Z) (j : Z) : Z * Z :=
  if (j <=? central)%Z then sq_range (dev_bounds j) else tail.

(** The i-th point of the grid, [-20 + i / 25]. *)
Definition grid_point (i : nat) : R := INR i * d2_step + -20.

(** Bounds on [dev F x * dev F x] at the 1001 grid points. *)
Definition grid_sq_ranges : list (Z * Z) :=
  let tail := tail_range in
  map (fun i => grid_range tail (Z.abs (Z.of_nat i - 500))) (seq 0 1001).

(** Twice the trapezoidal sum of a list of integers. *)
Fixpoint Ztrapz (zs : list Z) : Z :=
  match zs with
  | a :: (b :: _) as t => (b + a + Ztrapz t)%Z
  | _ => 0%Z
  end.

Definition grid_sums : Z * Z :=
  let l := grid_sq_ranges in (Ztrapz (map fst l), Ztrapz (map snd l)).

(** ** The integrand of d2 for any subgroup size

    With [u = p - 1/2] and [t = u^2], the sums
    [a_n = 2^n ((1/2 + u)^n + (1/2 - u)^n)] and the quotients
    [e_n = 2^n ((1/2 + u)^n - (1/2 - u)^n) / u] are polynomials in [t] that
    satisfy [a_(n+1) = a_n + 2 t e_n] and [e_(n+1) = e_n + 2 a_n]. *)
Fixpoint sym_pows (n : nat) (t : R) : R * R :=
  match n with
  | O => (2, 0)
  | S k => let '(a, e) := sym_pows k t in (a + 2 * t * e, e + 2 * a)
  end.

(** Bounds on [s / (2 PI)], in units of [2^-64], from bounds on [s >= 0] in
    units of [2^-128], with [3.141592653 <= PI <= 3.141592654]. *)
Definition unit_range (r : Z * Z) : Z * Z :=
  ((fst r * 500000000 / (3141592654 * fx_scale))%Z,
   cdiv (snd r * 500000000) (3141592653 * fx_scale)).

(** The recurrence on integers, with a lower and an upper bound for each
    quantity; a product is brought back to the scale by a shift, rounded
    down or up. *)
Record sstate : Type := mkS { alo : Z; ahi : Z; elo : Z; ehi : Z }.

Definition sinit : sstate := mkS (2 * fx_scale) (2 * fx_scale) 0 0.

Definition sstep (t : Z * Z) (s : sstate) : sstate :=
  mkS (alo s + Z.shiftr (2 * fst t * elo s) 64)
      (ahi s - Z.shiftr (- (2 * snd t * ehi s)) 64)
      (elo s + 2 * alo s)
      (ehi s + 2 * ahi s).

Fixpoint siter (n : nat) (t : Z * Z) : sstate :=
  match n with
  | O => sinit
  | S k => sstep t (siter k t)
  end.

(** The bounds on [a_0 .. a_n], from the state [s] on. *)
Fixpoint strace (n : nat) (t : Z * Z) (s : sstate) : list (Z * Z) :=
  match n with
  | O => [(alo s, ahi s)]
  | S k => (alo s, ahi s) :: strace k t (sstep t s)
  end.

(** The largest subgroup size of the table. *)
Definition table_size : nat := 10.

(** The bounds on [a_0 .. a_10] at the points [j / 25], [j = 0 .. 500]. *)
Definition grid_traces : list (list (Z * Z)) :=
  let tail := strace table_size (unit_range tail_range) sinit in
  map (fun j =>
         if (Z.of_nat j <=? central)%Z
         then strace table_size
                     (unit_range (sq_range (dev_bounds (Z.of_nat j)))) sinit
         else tail)
      (seq 0 501).

(** Bounds on [a_n] at the 1001 grid points, and twice their trapezoidal
    sums. *)
Definition sym_grid (tr : list (list (Z * Z))) (n : nat) : list (Z * Z) :=
  map (fun i => nth n (nth (Z.to_nat (Z.abs (Z.of_nat i - 500))) tr [])
                    (0, 0)%Z)
      (seq 0 1001).

Definition sym_sums (tr : list (list (Z * Z))) (n : nat) : Z * Z :=
  let l := sym_grid tr n in (Ztrapz (map fst l), Ztrapz (map snd l)).

(** The d2 constants of the control-chart tables for subgroups of 2 to 10,
    in thousandths. *)
Definition d2_table : list (nat * Z) :=
  [(2%nat, 1128%Z); (3%nat, 1693%Z); (4%nat, 2059%Z); (5%nat, 2326%Z);
   (6%nat, 2534%Z); (7%nat, 2704%Z); (8%nat, 2847%Z); (9%nat, 2970%Z);
   (10%nat, 3078%Z)].

(** Is the enclosure of [calculate_d2 n] within one thousandth of
    [v / 1000]? *)
Definition table_check (tr : list (list (Z * Z))) (e : nat * Z) : bool :=
  let s := sym_sums tr (fst e) in
  ((39999 - snd e) * 2 ^ Z.of_nat (fst e) * fx_scale <=? 20 * fst s)%Z
  && (20 * snd s <=? (40001 - snd e) * 2 ^ Z.of_nat (fst e) * fx_scale)%Z.

Definition d2_table_ok : bool :=
  let tr := grid_traces in forallb (table_check tr) d2_table.

(* ================================================================== *)
(** * Float arithmetic on finite values *)
(* ================================================================== *)

Lemma Rltb_true (a b : R) : a < b -> Rltb a b = true.
Proof. intros H; unfold Rltb; destruct (Rlt_dec a b); [reflexivity | contradiction]. Qed.

Lemma Rltb_false (a b : R) : ~ a < b -> Rltb a b = false.
Proof. intros H; unfold Rltb; destruct (Rlt_dec a b); [contradiction | reflexivity]. Qed.

Lemma Rltb_irrefl (a : R) : Rltb a a = false.
Proof. apply Rltb_false, Rlt_irrefl. Qed.

Lemma Reqb0_zero : Reqb0 0 = true.
Proof. unfold Reqb0; destruct (Req_dec_T 0 0); [reflexivity | contradiction]. Qed.

Lemma Reqb0_nonzero (a : R) : a <> 0 -> Reqb0 a = false.
Proof. intros H; unfold Reqb0; destruct (Req_dec_T a 0); [contradiction | reflexivity]. Qed.

Lemma fadd_fin (a b : R) : (Fin a + Fin b)%float = Fin (a + b).
Proof. reflexivity. Qed.

Lemma fmul_fin (a b : R) : (Fin a * Fin b)%float = Fin (a * b).
Proof. reflexivity. Qed.

Lemma fsub_fin (a b : R) : (Fin a - Fin b)%float = Fin (a - b).
Proof. reflexivity. Qed.

Lemma fdiv_fin (a b : R) : b <> 0 -> (Fin a / Fin b)%float = Fin (a / b).
Proof. intros H; simpl; now rewrite Reqb0_nonzero. Qed.


Lemma fdiv_zero_zero : (Fin 0 / Fin 0)%float = NaN.
Proof.
  simpl; rewrite Reqb0_zero; unfold inf_signed; now rewrite Rltb_irrefl.
Qed.

Lemma fdiv_nan_l (y : float) : (NaN / y)%float = NaN.
Proof. reflexivity. Qed.

Lemma fdiv_nan_r (x : float) : (x / NaN)%float = NaN.
Proof. now destruct x. Qed.

Lemma fmul_nan_r (x : float) : (x * NaN)%float = NaN.
Proof. now destruct x. Qed.

Lemma fpow_fin (a : R) (n : nat) : (Fin a ** n)%float = Fin (a ^ n).
Proof. now destruct n. Qed.

Create Rewrite HintDb fin_arith.
#[global] Hint Rewrite fadd_fin fsub_fin fmul_fin fpow_fin : fin_arith.

Lemma fsqrt_fin (a : R) : 0 <= a -> fsqrt (Fin a) = Fin (sqrt a).
Proof. intros H; simpl; rewrite Rltb_false; [reflexivity | lra]. Qed.

Lemma INR_S_neq_0 (k : nat) : INR (S k) <> 0.
Proof. apply not_0_INR; discriminate. Qed.

(* ================================================================== *)
(** * Sums *)
(* ================================================================== *)

Lemma fold_fadd_fin (l : list R) (a : R) :
  fold_left fadd (map Fin l) (Fin a) = Fin (a + Rsum l).
Proof.
  revert a; induction l as [|x l IH]; intros a; simpl.
  - f_equal; lra.
  - rewrite IH; f_equal; lra.
Qed.

Lemma np_sum_fin (l : list R) : np_sum (map Fin l) = Fin (Rsum l).
Proof. unfold np_sum; rewrite fold_fadd_fin; f_equal; lra. Qed.

Lemma Rsum_cons (x : R) (l : list R) : Rsum (x :: l) = x + Rsum l.
Proof. reflexivity. Qed.

Lemma Rsum_app (l1 l2 : list R) : Rsum (l1 ++ l2) = Rsum l1 + Rsum l2.
Proof. induction l1 as [|x l1 IH]; simpl; [lra | rewrite IH; lra]. Qed.

Lemma Rsum_scal (c : R) (l : list R) :
  Rsum (map (fun x => x * c) l) = Rsum l * c.
Proof. induction l as [|x l IH]; simpl; [lra | rewrite IH; lra]. Qed.

Lemma Rsum_ext_in (f g : R -> R) (l : list R) :
  (forall x, In x l -> f x = g x) -> Rsum (map f l) = Rsum (map g l).
Proof. intros H; f_equal; now apply map_ext_in. Qed.

Lemma Rsum_zero (l : list R) : (forall x, In x l -> x = 0) -> Rsum l = 0.
Proof.
  induction l as [|x l IH]; intros H; simpl; [reflexivity|].
  rewrite (H x (or_introl eq_refl)), IH; [lra|].
  intros y Hy; apply H; now right.
Qed.

Lemma Rsum_permutation (l1 l2 : list R) :
  Permutation l1 l2 -> Rsum l1 = Rsum l2.
Proof.
  induction 1 as [| x l l' _ IH | x y l | l l' l'' _ IH1 _ IH2]; simpl.
  - reflexivity.
  - now rewrite IH.
  - lra.
  - now rewrite IH1.
Qed.

(* ================================================================== *)
(** * Series of finite values *)
(* ================================================================== *)

Lemma dropna_fin (l : list R) : dropna (map Fin l) = map Fin l.
Proof.
  unfold dropna; induction l as [|x l IH]; simpl; [reflexivity | now rewrite IH].
Qed.

Lemma dropna_app (s1 s2 : Series) : dropna (s1 ++ s2) = dropna s1 ++ dropna s2.
Proof. apply filter_app. Qed.

Lemma dropna_repeat_nan (k : nat) : dropna (repeat NaN k) = [].
Proof. induction k as [|k IH]; simpl; [reflexivity | exact IH]. Qed.

Lemma series_mean_fin (l : list R) :
  l <> [] -> series_mean (map Fin l) = Fin (arith_mean l).
Proof.
  intros Hl; unfold series_mean, of_nat, arith_mean.
  rewrite dropna_fin, np_sum_fin, length_map.
  apply fdiv_fin.
  destruct l; [contradiction | apply INR_S_neq_0].
Qed.

Lemma series_mean_empty : series_mean [] = NaN.
Proof. unfold series_mean; simpl; apply fdiv_zero_zero. Qed.

Lemma fmax_fin (a b : R) : fmax (Fin a) (Fin b) = Fin (Rmax a b).
Proof.
  unfold fmax, Rmax; simpl; unfold Rltb.
  destruct (Rlt_dec a b), (Rle_dec a b); try reflexivity; f_equal; lra.
Qed.

Lemma fmin_fin (a b : R) : fmin (Fin a) (Fin b) = Fin (Rmin a b).
Proof.
  unfold fmin, Rmin; simpl; unfold Rltb.
  destruct (Rlt_dec b a), (Rle_dec a b); try reflexivity; f_equal; lra.
Qed.

Lemma MaxRlist_cons2 (x a : R) (l : list R) :
  MaxRlist (Rmax x a :: l) = Rmax x (MaxRlist (a :: l)).
Proof.
  destruct l as [|b l]; [reflexivity|].
  change (Rmax (Rmax x a) (MaxRlist (b :: l))
          = Rmax x (Rmax a (MaxRlist (b :: l)))).
  symmetry; apply Rmax_assoc.
Qed.

Lemma MinRlist_cons2 (x a : R) (l : list R) :
  MinRlist (Rmin x a :: l) = Rmin x (MinRlist (a :: l)).
Proof.
  destruct l as [|b l]; [reflexivity|].
  change (Rmin (Rmin x a) (MinRlist (b :: l))
          = Rmin x (Rmin a (MinRlist (b :: l)))).
  symmetry; apply Rmin_assoc.
Qed.

Lemma fold_Rmax_MaxRlist (t : list R) (x : R) :
  fold_left Rmax t x = MaxRlist (x :: t).
Proof.
  revert x; induction t as [|a t IH]; intros x; [reflexivity|].
  cbn [fold_left]; rewrite IH, MaxRlist_cons2; reflexivity.
Qed.

Lemma fold_Rmin_MinRlist (t : list R) (x : R) :
  fold_left Rmin t x = MinRlist (x :: t).
Proof.
  revert x; induction t as [|a t IH]; intros x; [reflexivity|].
  cbn [fold_left]; rewrite IH, MinRlist_cons2; reflexivity.
Qed.

Lemma fold_fmax_fin (t : list R) (x : R) :
  fold_left fmax (map Fin t) (Fin x) = Fin (fold_left Rmax t x).
Proof.
  revert x; induction t as [|a t IH]; intros x; [reflexivity|].
  cbn [map fold_left]; now rewrite fmax_fin, IH.
Qed.

Lemma fold_fmin_fin (t : list R) (x : R) :
  fold_left fmin (map Fin t) (Fin x) = Fin (fold_left Rmin t x).
Proof.
  revert x; induction t as [|a t IH]; intros x; [reflexivity|].
  cbn [map fold_left]; now rewrite fmin_fin, IH.
Qed.

Lemma reduce_fmax_fin (v : list R) :
  v <> [] -> reduce fmax (map Fin v) = Fin (MaxRlist v).
Proof.
  destruct v as [|x t]; [contradiction | intros _].
  cbn [map reduce]; now rewrite fold_fmax_fin, fold_Rmax_MaxRlist.
Qed.

Lemma reduce_fmin_fin (v : list R) :
  v <> [] -> reduce fmin (map Fin v) = Fin (MinRlist v).
Proof.
  destruct v as [|x t]; [contradiction | intros _].
  cbn [map reduce]; now rewrite fold_fmin_fin, fold_Rmin_MinRlist.
Qed.

Lemma existsb_nan_fin (v : list R) : existsb is_nan (map Fin v) = false.
Proof. induction v as [|x v IH]; [reflexivity | exact IH]. Qed.

(* ================================================================== *)
(** * Sliding windows *)
(* ================================================================== *)

Lemma In_firstn (A : Type) (n : nat) (l : list A) (y : A) :
  In y (firstn n l) -> In y l.
Proof.
  intros H; rewrite <- (firstn_skipn n l); apply in_or_app; now left.
Qed.

Lemma In_skipn (A : Type) (n : nat) (l : list A) (y : A) :
  In y (skipn n l) -> In y l.
Proof.
  intros H; rewrite <- (firstn_skipn n l); apply in_or_app; now right.
Qed.

Lemma windows_seq (w : nat) (l : list R) :
  (1 <= w)%nat ->
  windows w l
  = map (fun j => firstn w (skipn j l)) (seq 0 (length l + 1 - w)).
Proof.
  intros Hw; induction l as [|x t IH].
  - cbn [length windows].
    replace (0 + 1 - w)%nat with 0%nat by lia; reflexivity.
  - cbn [windows]; destruct (Nat.leb_spec w (length (x :: t))) as [Hle|Hgt].
    + cbn [length] in *.
      replace (S (length t) + 1 - w)%nat with (S (length t + 1 - w)) by lia.
      cbn [seq map]; rewrite <- seq_shift, map_map, IH; reflexivity.
    + cbn [length] in *.
      replace (S (length t) + 1 - w)%nat with 0%nat by lia; reflexivity.
Qed.

Lemma length_windows (w : nat) (l : list R) :
  (1 <= w)%nat -> length (windows w l) = (length l + 1 - w)%nat.
Proof. intros Hw; now rewrite windows_seq, length_map, length_seq. Qed.

Lemma windows_nonempty (w : nat) (l v : list R) :
  (1 <= w)%nat -> In v (windows w l) -> v <> [] /\ incl v l.
Proof.
  intros Hw; rewrite windows_seq by assumption.
  rewrite in_map_iff; intros (j & <- & Hj); rewrite in_seq in Hj; split.
  - intros E; apply (f_equal (@length R)) in E.
    rewrite length_firstn, length_skipn in E; simpl in E; lia.
  - intros y Hy.
    apply In_firstn, In_skipn in Hy; exact Hy.
Qed.

(* ================================================================== *)
(** * Rolling aggregations *)
(* ================================================================== *)

Lemma seq_offset (a n : nat) : seq a n = map (Nat.add a) (seq 0 n).
Proof.
  induction a as [|a IH].
  - now rewrite map_id.
  - rewrite <- seq_shift, IH, map_map; reflexivity.
Qed.

(** A window larger than the Series leaves every row [nan]. *)
Lemma rolling_agg_short (op : float -> float -> float) (s : Series) (w : nat) :
  (length s < w)%nat ->
  rolling_agg op (rolling s w) = repeat NaN (length s).
Proof.
  intros H; unfold rolling_agg; cbn [obj win rolling].
  rewrite (map_ext_in _ (fun _ => NaN)).
  - now rewrite map_const, length_seq.
  - intros i Hi; rewrite in_seq in Hi.
    replace (w <=? S i)%nat with false by (symmetry; apply Nat.leb_gt; lia).
    now rewrite andb_false_r.
Qed.

(** On a Series of reals the first [w - 1] rows are [nan] and the others hold
    the aggregate of the successive windows. *)
Lemma rolling_agg_fin (op : float -> float -> float) (rop : list R -> R)
    (xs : list R) (w : nat) :
  (forall v, v <> [] -> reduce op (map Fin v) = Fin (rop v)) ->
  (1 <= w <= length xs)%nat ->
  rolling_agg op (rolling (map Fin xs) w)
  = repeat NaN (w - 1) ++ map (fun v => Fin (rop v)) (windows w xs).
Proof.
  intros Hop Hw; unfold rolling_agg, window_at; cbn [obj win rolling].
  rewrite length_map.
  replace (seq 0 (length xs))
    with (seq 0 (w - 1) ++ seq (w - 1) (length xs + 1 - w)).
  2:{ rewrite <- seq_app; f_equal; lia. }
  rewrite map_app; f_equal.
  - rewrite (map_ext_in _ (fun _ => NaN)).
    + now rewrite map_const, length_seq.
    + intros i Hi; rewrite in_seq in Hi.
      replace (w <=? S i)%nat with false by (symmetry; apply Nat.leb_gt; lia).
      now rewrite andb_false_r.
  - rewrite windows_seq, seq_offset, !map_map by lia.
    apply map_ext_in; intros j Hj; rewrite in_seq in Hj.
    replace (0 <? w)%nat with true by (symmetry; apply Nat.ltb_lt; lia).
    replace (w <=? S (w - 1 + j))%nat with true
      by (symmetry; apply Nat.leb_le; lia).
    replace (S (w - 1 + j) - w)%nat with j by lia.
    rewrite skipn_map, firstn_map, existsb_nan_fin; cbn [andb negb].
    apply Hop; intros E; apply (f_equal (@length R)) in E.
    rewrite length_firstn, length_skipn in E; simpl in E; lia.
Qed.

Lemma combine_app_eq (A B : Type) (l1 l2 : list A) (m1 m2 : list B) :
  length l1 = length m1 ->
  combine (l1 ++ l2) (m1 ++ m2) = combine l1 m1 ++ combine l2 m2.
Proof.
  revert m1; induction l1 as [|a l1 IH]; intros [|b m1] H; try discriminate.
  - reflexivity.
  - simpl; f_equal; apply IH; now injection H.
Qed.

Lemma combine_repeat (A B : Type) (a : A) (b : B) (k : nat) :
  combine (repeat a k) (repeat b k) = repeat (a, b) k.
Proof. induction k as [|k IH]; simpl; [reflexivity | now rewrite IH]. Qed.

Lemma combine_map_same (A B C : Type) (f : A -> B) (g : A -> C) (l : list A) :
  combine (map f l) (map g l) = map (fun x => (f x, g x)) l.
Proof. induction l as [|x l IH]; simpl; [reflexivity | now rewrite IH]. Qed.

(** The rolling max-minus-min of a Series of reals: [nan] on the first
    [w - 1] rows, then the range of each window. *)
Lemma rolling_range_fin (xs : list R) (w : nat) :
  (1 <= w <= length xs)%nat ->
  series_sub (rolling_max (rolling (map Fin xs) w))
             (rolling_min (rolling (map Fin xs) w))
  = repeat NaN (w - 1) ++ map (fun v => Fin (window_range v)) (windows w xs).
Proof.
  intros Hw; unfold series_sub, rolling_max, rolling_min.
  rewrite (rolling_agg_fin fmax MaxRlist), (rolling_agg_fin fmin MinRlist);
    auto using reduce_fmax_fin, reduce_fmin_fin.
  rewrite combine_app_eq by now rewrite !repeat_length.
  rewrite map_app, combine_repeat, map_repeat, combine_map_same, map_map.
  reflexivity.
Qed.

Lemma rolling_range_short (s : Series) (w : nat) :
  (length s < w)%nat ->
  series_sub (rolling_max (rolling s w)) (rolling_min (rolling s w))
  = repeat NaN (length s).
Proof.
  intros Hw; unfold series_sub, rolling_max, rolling_min.
  rewrite !rolling_agg_short by assumption.
  now rewrite combine_repeat, map_repeat.
Qed.

Lemma series_div_nan (k : nat) (c : float) :
  series_div (repeat NaN k) c = repeat NaN k.
Proof. unfold series_div; now rewrite map_repeat. Qed.

(* ================================================================== *)
(** * The grid and the trapezoidal rule *)
(* ================================================================== *)

Lemma set_last_app (l : list float) (x v : float) :
  set_last (l ++ [x]) v = l ++ [v].
Proof.
  induction l as [|a l IH]; [reflexivity|].
  cbn [app set_last]; rewrite IH.
  destruct l; reflexivity.
Qed.

Lemma feq_fin_neq (a b : R) : a <> b -> feq (Fin a) (Fin b) = false.
Proof.
  intros H; cbn [feq]; destruct (Req_dec_T a b); [contradiction | reflexivity].
Qed.

Lemma linspace_fin (a b : R) (k : nat) :
  a <> b ->
  let h := (b - a) / INR (S k) in
  linspace (Fin a) (Fin b) (S (S k))
  = (map Fin (map (fun i => INR i * h + a) (seq 0 (S k)) ++ [b]), Fin h).
Proof.
  intros Hab h; unfold linspace, of_nat.
  replace (S (S k) - 1)%nat with (S k) by lia.
  change (0 <? S k)%nat with true; change (1 <? S (S k))%nat with true.
  rewrite fsub_fin, (fdiv_fin _ _ (INR_S_neq_0 k)); fold h.
  assert (Hh : h <> 0).
  { unfold h, Rdiv; apply Rmult_integral_contrapositive_currified;
      [lra | apply Rinv_neq_0_compat, INR_S_neq_0]. }
  rewrite (feq_fin_neq _ _ Hh); cbv iota beta.
  rewrite !map_map, (seq_S (S k) 0), map_app; cbn [map].
  rewrite set_last_app, map_app, map_map.
  reflexivity.
Qed.

Lemma d2_step_val : d2_step = 1 / 25.
Proof.
  unfold d2_step; rewrite INR_IZR_INZ.
  change (Z.of_nat 1000) with 1000%Z; lra.
Qed.

Lemma d2_step_pos : 0 < d2_step.
Proof. rewrite d2_step_val; lra. Qed.

Lemma linspace_d2 :
  linspace (Fin (-20)) (Fin 20) 1001 = (map Fin d2_grid, Fin d2_step).
Proof. apply (linspace_fin (-20) 20 999); lra. Qed.

Lemma length_d2_grid : length d2_grid = 1001%nat.
Proof.
  unfold d2_grid; rewrite length_app, length_map, length_seq; reflexivity.
Qed.

Lemma Rtrapz_cons2 (a b : R) (t : list R) (h : R) :
  Rtrapz (a :: b :: t) h = h * (b + a) / 2 + Rtrapz (b :: t) h.
Proof. reflexivity. Qed.

Lemma adjacent_cons (A : Type) (a b : A) (t : list A) :
  combine (tl (a :: b :: t)) (removelast (a :: b :: t))
  = (b, a) :: combine (tl (b :: t)) (removelast (b :: t)).
Proof. reflexivity. Qed.

Lemma trapz_fin (ys : list R) (h : R) :
  trapz (map Fin ys) (Fin h) = Fin (Rtrapz ys h).
Proof.
  unfold trapz, np_sum.
  enough (G : forall acc,
             fold_left fadd
               (map (fun p => (Fin h * (fst p + snd p) / Fin 2)%float)
                    (combine (tl (map Fin ys)) (removelast (map Fin ys))))
               (Fin acc)
             = Fin (acc + Rtrapz ys h)).
  { rewrite G; f_equal; lra. }
  induction ys as [|a ys IH]; intros acc.
  - simpl; f_equal; lra.
  - destruct ys as [|b t].
    + simpl; f_equal; lra.
    + specialize (IH (acc + h * (b + a) / 2)).
      cbn [map] in IH |- *; rewrite adjacent_cons.
      cbn [map fold_left fst snd].
      rewrite fadd_fin, fmul_fin, fdiv_fin, fadd_fin by lra.
      rewrite IH, Rtrapz_cons2; f_equal; lra.
Qed.

Lemma Rtrapz_nonneg (ys : list R) (h : R) :
  0 <= h -> (forall y, In y ys -> 0 <= y) -> 0 <= Rtrapz ys h.
Proof.
  intros Hh; induction ys as [|a ys IH]; intros H; [simpl; lra|].
  destruct ys as [|b t]; [simpl; lra|].
  rewrite Rtrapz_cons2.
  assert (0 <= a) by (apply H; now left).
  assert (0 <= b) by (apply H; right; now left).
  assert (0 <= Rtrapz (b :: t) h) by (apply IH; intros y Hy; apply H; now right).
  assert (0 <= h * (b + a)) by (apply Rmult_le_pos; lra).
  lra.
Qed.

Lemma Rtrapz_pos (ys : list R) (h : R) :
  0 < h -> (2 <= length ys)%nat -> (forall y, In y ys -> 0 < y) ->
  0 < Rtrapz ys h.
Proof.
  intros Hh Hlen H.
  destruct ys as [|a [|b t]]; simpl in Hlen; try lia.
  rewrite Rtrapz_cons2.
  assert (0 < a) by (apply H; now left).
  assert (0 < b) by (apply H; right; now left).
  assert (0 <= Rtrapz (b :: t) h).
  { apply Rtrapz_nonneg; [lra|]; intros y Hy; apply Rlt_le, H; now right. }
  assert (0 < h * (b + a)) by (apply Rmult_lt_0_compat; lra).
  lra.
Qed.

Lemma Rtrapz_le {A : Type} (f g : A -> R) (xs : list A) (h : R) :
  0 <= h -> (forall x, In x xs -> f x <= g x) ->
  Rtrapz (map f xs) h <= Rtrapz (map g xs) h.
Proof.
  intros Hh; induction xs as [|a xs IH]; intros H; [simpl; lra|].
  destruct xs as [|b t]; [simpl; lra|].
  cbn [map] in IH |- *; rewrite !Rtrapz_cons2.
  assert (f a <= g a) by (apply H; now left).
  assert (f b <= g b) by (apply H; right; now left).
  assert (G : forall x, In x (b :: t) -> f x <= g x)
    by (intros y Hy; apply H; now right).
  specialize (IH G).
  assert (h * (f b + f a) <= h * (g b + g a))
    by (apply Rmult_le_compat_l; lra).
  lra.
Qed.

Lemma Rtrapz_const (c h : R) (xs : list R) :
  Rtrapz (map (fun _ => c) xs) h = INR (length xs - 1) * (h * c).
Proof.
  induction xs as [|a xs IH]; [simpl; lra|].
  destruct xs as [|b t]; [simpl; lra|].
  cbn [map] in IH |- *; rewrite Rtrapz_cons2, IH.
  cbn [length]; rewrite !Nat.sub_succ, !Nat.sub_0_r, S_INR; lra.
Qed.

(* ================================================================== *)
(** * Minimum of two finite values *)
(* ================================================================== *)

Lemma np_min_fin2 (a b : R) : np_min [Fin a; Fin b] = Fin (Rmin a b).
Proof.
  cbn [np_min fold_left]; unfold np_minimum, Rmin; cbn [is_nan orb flt].
  unfold Rltb; destruct (Rlt_dec b a), (Rle_dec a b);
    try reflexivity; f_equal; lra.
Qed.

Lemma py_min_fin2 (a b : R) : py_min [Fin a; Fin b] = Fin (Rmin a b).
Proof.
  cbn [py_min fold_left flt]; unfold Rmin, Rltb.
  destruct (Rlt_dec b a), (Rle_dec a b); try reflexivity; f_equal; lra.
Qed.

Lemma np_min_nan2 : np_min [NaN; NaN] = NaN.
Proof. reflexivity. Qed.

Lemma np_min_pinf2 : np_min [PInf; PInf] = PInf.
Proof. reflexivity. Qed.

(* ================================================================== *)
(** * Mean and standard deviation of a Series of reals *)
(* ================================================================== *)

Lemma Rsum_sqr_nonneg (c : R) (l : list R) :
  0 <= Rsum (map (fun x => (c - x) ^ 2) l).
Proof.
  induction l as [|x l IH]; [simpl; lra|].
  cbn [map]; rewrite Rsum_cons.
  pose proof (pow2_ge_0 (c - x)); lra.
Qed.

Lemma sample_var_nonneg (l : list R) : 0 <= sample_var l.
Proof.
  unfold sample_var.
  destruct (Nat.eq_dec (length l - 1) 0) as [E|E].
  - rewrite E; simpl; unfold Rdiv; rewrite Rinv_0; lra.
  - apply Rmult_le_pos; [apply Rsum_sqr_nonneg|].
    apply Rlt_le, Rinv_0_lt_compat, lt_0_INR; lia.
Qed.

Lemma series_std_fin (l : list R) :
  (2 <= length l)%nat -> series_std (map Fin l) = Fin (sample_std l).
Proof.
  intros Hl; unfold series_std, of_nat.
  rewrite dropna_fin, length_map.
  replace (length l <=? 1)%nat with false by (symmetry; apply Nat.leb_gt; lia).
  rewrite np_sum_fin, fdiv_fin by (apply not_0_INR; lia).
  rewrite map_map.
  rewrite (map_ext _ (fun x => Fin ((Rsum l / INR (length l) - x) ^ 2)))
    by (intros x; now autorewrite with fin_arith).
  rewrite <- (map_map (fun x => (Rsum l / INR (length l) - x) ^ 2) Fin).
  rewrite np_sum_fin, fdiv_fin by (apply not_0_INR; lia).
  apply fsqrt_fin, sample_var_nonneg.
Qed.

Lemma series_std_short (s : Series) :
  (length (dropna s) <= 1)%nat -> series_std s = NaN.
Proof.
  intros H; unfold series_std.
  now replace (length (dropna s) <=? 1)%nat with true
    by (symmetry; apply Nat.leb_le; lia).
Qed.

Lemma arith_mean_permutation (l1 l2 : list R) :
  Permutation l1 l2 -> arith_mean l1 = arith_mean l2.
Proof.
  intros H; unfold arith_mean.
  now rewrite (Rsum_permutation _ _ H), (Permutation_length H).
Qed.


Lemma arith_mean_const (v : R) (l : list R) :
  l <> [] -> (forall x, In x l -> x = v) -> arith_mean l = v.
Proof.
  intros Hne Hc; unfold arith_mean.
  assert (E : Rsum l = INR (length l) * v).
  { clear Hne; induction l as [|x l IH]; [simpl; lra|].
    cbn [length]; rewrite Rsum_cons, S_INR.
    rewrite IH by (intros y Hy; apply Hc; now right).
    rewrite (Hc x (or_introl eq_refl)); lra. }
  rewrite E; field; destruct l; [contradiction | apply INR_S_neq_0].
Qed.

Lemma sample_std_const (v : R) (l : list R) :
  l <> [] -> (forall x, In x l -> x = v) -> sample_std l = 0.
Proof.
  intros Hne Hc; unfold sample_std, sample_var.
  rewrite (arith_mean_const v) by assumption.
  rewrite Rsum_zero.
  - unfold Rdiv; rewrite Rmult_0_l; apply sqrt_0.
  - intros y Hy; rewrite in_map_iff in Hy; destruct Hy as (x & <- & Hx).
    rewrite (Hc x Hx); simpl; lra.
Qed.

(* ================================================================== *)
(** * Extrema *)
(* ================================================================== *)

Lemma Permutation_nonempty {A : Type} {l1 l2 : list A} :
  Permutation l1 l2 -> l1 <> [] -> l2 <> [].
Proof.
  intros H Hne ->; apply Hne.
  now apply Permutation_nil, Permutation_sym.
Qed.






Lemma series_min_fin (l : list R) :
  l <> [] -> series_min (map Fin l) = Fin (MinRlist l).
Proof.
  intros H; unfold series_min; rewrite dropna_fin; now apply reduce_fmin_fin.
Qed.

Lemma series_max_fin (l : list R) :
  l <> [] -> series_max (map Fin l) = Fin (MaxRlist l).
Proof.
  intros H; unfold series_max; rewrite dropna_fin; now apply reduce_fmax_fin.
Qed.







Lemma window_range_pair (a b : R) : window_range [a; b] = Rabs (a - b).
Proof.
  unfold window_range; cbn [MaxRlist MinRlist].
  unfold Rmax, Rmin, Rabs.
  destruct (Rle_dec a b), (Rcase_abs (a - b)); lra.
Qed.

(* ================================================================== *)
(** * The integrand of d2 *)
(* ================================================================== *)

Lemma pow_le_unit (q : R) (m n : nat) :
  0 <= q <= 1 -> (m <= n)%nat -> q ^ n <= q ^ m.
Proof.
  intros Hq Hmn; induction Hmn as [|n Hmn IH]; [lra|].
  assert (0 <= q ^ n) by (apply pow_le; lra).
  simpl; nra.
Qed.

Lemma d2_integrand_0 (p : R) : d2_integrand p 0 = -1.
Proof. unfold d2_integrand; simpl; lra. Qed.

Lemma d2_integrand_1 (p : R) : d2_integrand p 1 = 0.
Proof. unfold d2_integrand; simpl; lra. Qed.

Lemma d2_integrand_2 (p : R) : d2_integrand p 2 = 2 * p * (1 - p).
Proof. unfold d2_integrand; simpl; lra. Qed.

Lemma d2_integrand_mono (p : R) (m n : nat) :
  0 <= p <= 1 -> (m <= n)%nat -> d2_integrand p m <= d2_integrand p n.
Proof.
  intros Hp Hmn; unfold d2_integrand.
  assert (p ^ n <= p ^ m) by (apply pow_le_unit; [lra | assumption]).
  assert ((1 - p) ^ n <= (1 - p) ^ m) by (apply pow_le_unit; [lra | assumption]).
  lra.
Qed.

Lemma d2_integrand_nonneg (p : R) (n : nat) :
  0 <= p <= 1 -> (1 <= n)%nat -> 0 <= d2_integrand p n.
Proof.
  intros Hp Hn; rewrite <- (d2_integrand_1 p); now apply d2_integrand_mono.
Qed.

Lemma d2_integrand_pos (p : R) (n : nat) :
  0 < p < 1 -> (2 <= n)%nat -> 0 < d2_integrand p n.
Proof.
  intros Hp Hn.
  apply Rlt_le_trans with (d2_integrand p 2).
  - rewrite d2_integrand_2; nra.
  - apply d2_integrand_mono; [lra | assumption].
Qed.

(* ================================================================== *)
(** * Properties of the three functions *)
(* ================================================================== *)

Section Properties.

Variable ndtr : R -> R.

Hypothesis ndtr_bounds : forall x, 0 < ndtr x < 1.

Lemma cdf_fin (m s x : R) :
  0 < s -> cdf ndtr (norm (Fin m) (Fin s)) (Fin x) = Fin (ndtr ((x - m) / s)).
Proof.
  intros Hs; unfold cdf; cbn [loc scale flt].
  rewrite (Rltb_true _ _ Hs), fsub_fin, fdiv_fin by lra; reflexivity.
Qed.

Lemma cdf_standard (x : R) :
  cdf ndtr (norm (Fin 0) (Fin 1)) (Fin x) = Fin (ndtr x).
Proof. rewrite cdf_fin by lra; do 2 f_equal; lra. Qed.

(** [calculate_d2] never leaves the finite values: it is the real
    trapezoidal sum. *)
Lemma calculate_d2_fin (n : nat) :
  calculate_d2 ndtr n = Fin (d2_real ndtr n).
Proof.
  unfold calculate_d2, d2_real; rewrite linspace_d2, map_map.
  rewrite (map_ext _ (fun x => Fin (d2_integrand (ndtr x) n))).
  - rewrite <- (map_map (fun x => d2_integrand (ndtr x) n) Fin).
    apply trapz_fin.
  - intros x; rewrite cdf_standard; autorewrite with fin_arith.
    reflexivity.
Qed.

Lemma d2_real_zero : d2_real ndtr 0 = -40.
Proof.
  unfold d2_real.
  rewrite (map_ext _ (fun _ => -1)) by (intros x; apply d2_integrand_0).
  rewrite Rtrapz_const, length_d2_grid, d2_step_val.
  change (1001 - 1)%nat with 1000%nat.
  rewrite INR_IZR_INZ; change (Z.of_nat 1000) with 1000%Z; lra.
Qed.

Lemma d2_real_one : d2_real ndtr 1 = 0.
Proof.
  unfold d2_real.
  rewrite (map_ext _ (fun _ => 0)) by (intros x; apply d2_integrand_1).
  rewrite Rtrapz_const; lra.
Qed.

Lemma d2_real_mono (m n : nat) :
  (m <= n)%nat -> d2_real ndtr m <= d2_real ndtr n.
Proof.
  intros Hmn; unfold d2_real; apply Rtrapz_le.
  - apply Rlt_le, d2_step_pos.
  - intros x _; apply d2_integrand_mono; [|assumption].
    destruct (ndtr_bounds x); lra.
Qed.


Lemma d2_real_pos (n : nat) : (2 <= n)%nat -> 0 < d2_real ndtr n.
Proof.
  intros Hn; unfold d2_real; apply Rtrapz_pos.
  - apply d2_step_pos.
  - rewrite length_map, length_d2_grid; lia.
  - intros y Hy; rewrite in_map_iff in Hy; destruct Hy as (x & <- & _).
    apply d2_integrand_pos; [apply ndtr_bounds | assumption].
Qed.

(** The within-subgroup estimate on a Series of reals, when the window fits
    and d2 is not zero. *)
Lemma std_within_fin (xs : list R) (LSL USL : float) (w : nat) :
  (1 <= w <= length xs)%nat -> d2_real ndtr w <> 0 ->
  std_within (calculate_process ndtr (map Fin xs) LSL USL w)
  = Fin (arith_mean (map window_range (windows w xs)) / d2_real ndtr w).
Proof.
  intros Hw Hd; unfold calculate_process; cbn [std_within].
  rewrite rolling_range_fin, calculate_d2_fin by assumption.
  unfold series_div, series_mean, of_nat; rewrite map_app, map_repeat, map_map.
  rewrite (map_ext _ (fun v => Fin (window_range v / d2_real ndtr w)))
    by (intros v; now apply fdiv_fin).
  rewrite <- (map_map (fun v => window_range v / d2_real ndtr w) Fin).
  rewrite fdiv_nan_l, dropna_app, dropna_repeat_nan, dropna_fin; cbn [app].
  rewrite np_sum_fin, !length_map, fdiv_fin
    by (rewrite length_windows by lia; apply not_0_INR; lia).
  f_equal; unfold arith_mean; rewrite length_map.
  rewrite <- (map_map window_range (fun r => r / d2_real ndtr w)).
  change (fun r => r / d2_real ndtr w) with (fun r => r * / d2_real ndtr w).
  rewrite Rsum_scal.
  assert (INR (length (windows w xs)) <> 0)
    by (rewrite length_windows by lia; apply not_0_INR; lia).
  now field.
Qed.

(** When the window exceeds the Series every row of the rolling range is
    [nan], and so is the estimate. *)
Lemma std_within_short (samples : Series) (LSL USL : float) (w : nat) :
  (length samples < w)%nat ->
  std_within (calculate_process ndtr samples LSL USL w) = NaN.
Proof.
  intros Hw; unfold calculate_process; cbn [std_within].
  rewrite rolling_range_short, series_div_nan by assumption.
  unfold series_mean; rewrite dropna_repeat_nan; apply fdiv_zero_zero.
Qed.

Lemma ppk_eq (samples : Series) (LSL USL : float) (w : nat) :
  let r := calculate_process ndtr samples LSL USL w in
  ppk r = np_min [ ((USL - mean r) / (Fin 3 * std r))%float;
                   ((mean r - LSL) / (Fin 3 * std r))%float ].
Proof. reflexivity. Qed.

Lemma cpk_eq (samples : Series) (LSL USL : float) (w : nat) :
  let r := calculate_process ndtr samples LSL USL w in
  cpk r = np_min [ ((USL - mean r) / (Fin 3 * std_within r))%float;
                   ((mean r - LSL) / (Fin 3 * std_within r))%float ].
Proof. reflexivity. Qed.

Lemma mean_eq (samples : Series) (LSL USL : float) (w : nat) :
  mean (calculate_process ndtr samples LSL USL w) = series_mean samples.
Proof. reflexivity. Qed.

Lemma std_eq (samples : Series) (LSL USL : float) (w : nat) :
  std (calculate_process ndtr samples LSL USL w) = series_std samples.
Proof. reflexivity. Qed.

(** The capability index of finite statistics with a non-zero deviation is
    the real minimum of the two one-sided ratios. *)
Lemma index_fin (l u mu s : R) :
  s <> 0 ->
  np_min [ ((Fin u - Fin mu) / (Fin 3 * Fin s))%float;
           ((Fin mu - Fin l) / (Fin 3 * Fin s))%float ]
  = Fin (Rmin ((u - mu) / (3 * s)) ((mu - l) / (3 * s))).
Proof.
  intros Hs; rewrite !fsub_fin, fmul_fin, !fdiv_fin by lra.
  apply np_min_fin2.
Qed.


Lemma index_nan_dev (x y : float) :
  np_min [ (x / (Fin 3 * NaN))%float; (y / (Fin 3 * NaN))%float ] = NaN.
Proof. rewrite fmul_nan_r, !fdiv_nan_r; reflexivity. Qed.

(* ------------------------------------------------------------------ *)
(** ** calculate_d2 *)
(* ------------------------------------------------------------------ *)

(** C10: [calculate_d2(0)] returns [-40.0], a negative value: for [n = 0]
    the integrand is identically [-1] and the trapezoidal rule over
    [[-20, 20]] sums it to [-40]. *)
Theorem calculate_d2_zero :
  calculate_d2 ndtr 0 = Fin (-40)
  /\ flt (calculate_d2 ndtr 0) (Fin 0) = true.
Proof.
  rewrite calculate_d2_fin, d2_real_zero; split; [reflexivity|].
  apply Rltb_true; lra.
Qed.


(** C5: [calculate_d2] is monotonically non-decreasing on the integers
    [n >= 1]: for [1 <= m <= n], [calculate_d2(m) <= calculate_d2(n)]. *)
Theorem calculate_d2_monotone (m n : nat) :
  (1 <= m <= n)%nat ->
  exists a b,
    calculate_d2 ndtr m = Fin a /\ calculate_d2 ndtr n = Fin b /\ a <= b.
Proof.
  intros [_ Hmn]; exists (d2_real ndtr m), (d2_real ndtr n).
  repeat split; try apply calculate_d2_fin; now apply d2_real_mono.
Qed.

(* ------------------------------------------------------------------ *)
(** ** calculate_process *)
(* ------------------------------------------------------------------ *)

(** C1: for a series of length [L] and a window [2 <= w <= L], there are
    [L - w + 1] sliding windows and [std_within] is the arithmetic mean of
    their ranges (max minus min) divided by [calculate_d2(w)]: the mean of
    the rolling max-minus-min over d2 taken row by row is the mean range
    over d2. *)
Theorem std_within_mean_range (xs : list R) (LSL USL : float) (w : nat) :
  (2 <= w <= length xs)%nat ->
  exists d,
    calculate_d2 ndtr w = Fin d /\ 0 < d
    /\ length (windows w xs) = (length xs - w + 1)%nat
    /\ std_within (calculate_process ndtr (map Fin xs) LSL USL w)
       = Fin (arith_mean (map window_range (windows w xs)) / d).
Proof.
  intros Hw; exists (d2_real ndtr w).
  assert (Hd : 0 < d2_real ndtr w) by (apply d2_real_pos; lia).
  repeat split.
  - apply calculate_d2_fin.
  - exact Hd.
  - rewrite length_windows; lia.
  - apply std_within_fin; [lia | lra].
Qed.

(** C2: [ppk] is the minimum of [(USL - mu) / (3 std)] and
    [(mu - LSL) / (3 std)], and [cpk] the same with [std_within] for [std]:
    as float expressions on the returned fields in every case, and as the
    real minimum when the statistics are numbers and the deviation is not
    zero. *)
Theorem ppk_cpk_formulas (samples : Series) (LSL USL : float) (w : nat) :
  let r := calculate_process ndtr samples LSL USL w in
  (ppk r = np_min [ ((USL - mean r) / (Fin 3 * std r))%float;
                    ((mean r - LSL) / (Fin 3 * std r))%float ]
   /\ cpk r = np_min [ ((USL - mean r) / (Fin 3 * std_within r))%float;
                       ((mean r - LSL) / (Fin 3 * std_within r))%float ])
  /\ (forall l u mu : R,
        LSL = Fin l -> USL = Fin u -> mean r = Fin mu ->
        (forall s, std r = Fin s -> s <> 0 ->
           ppk r = Fin (Rmin ((u - mu) / (3 * s)) ((mu - l) / (3 * s))))
        /\ (forall sw, std_within r = Fin sw -> sw <> 0 ->
              cpk r = Fin (Rmin ((u - mu) / (3 * sw)) ((mu - l) / (3 * sw))))).
Proof.
  intros r; split; [split; reflexivity|].
  intros l u mu -> -> Hmu; split.
  - intros s Hs Hs0; unfold r in *.
    rewrite ppk_eq; cbv zeta; rewrite Hmu, Hs; now apply index_fin.
  - intros sw Hsw Hsw0; unfold r in *.
    rewrite cpk_eq; cbv zeta; rewrite Hmu, Hsw; now apply index_fin.
Qed.


(** C8: when the series is shorter than the window no row has a complete
    rolling window, and [std_within] and [cpk] are [nan]; the call still
    returns its record. *)
Theorem short_series_nan (samples : Series) (LSL USL : float) (w : nat) :
  (length samples < w)%nat ->
  let r := calculate_process ndtr samples LSL USL w in
  rolling_max (rolling samples w) = repeat NaN (length samples)
  /\ rolling_min (rolling samples w) = repeat NaN (length samples)
  /\ std_within r = NaN
  /\ cpk r = NaN.
Proof.
  intros Hw r; repeat split.
  - now apply rolling_agg_short.
  - now apply rolling_agg_short.
  - now apply std_within_short.
  - unfold r; rewrite cpk_eq; cbv zeta.
    rewrite std_within_short by assumption; apply index_nan_dev.
Qed.


(* ------------------------------------------------------------------ *)
(** ** calculate_p_value *)
(* ------------------------------------------------------------------ *)

(** C3: for a non-empty series, any mean and a standard deviation
    [std > 0], [calculate_p_value] returns the arithmetic mean over the
    samples [s] of [2 * min(1 - F(s), F(s))], [F] being the distribution
    function of the normal law with that mean and deviation. *)
Theorem p_value_mean_tail (m s : R) (xs : list R) :
  xs <> [] ->
  0 < s ->
  calculate_p_value ndtr (Fin m) (Fin s) (map Fin xs)
  = Fin (arith_mean (map (two_sided_tail ndtr m s) xs)).
Proof.
  intros Hne Hs; unfold calculate_p_value, np_mean, of_nat.
  rewrite map_map.
  rewrite (map_ext _ (fun x => Fin (two_sided_tail ndtr m s x))).
  - rewrite <- (map_map (two_sided_tail ndtr m s) Fin).
    unfold arith_mean; rewrite np_sum_fin, !length_map.
    apply fdiv_fin; destruct xs; [contradiction | apply INR_S_neq_0].
  - intros x; rewrite cdf_fin, fsub_fin, py_min_fin2, fmul_fin by assumption.
    reflexivity.
Qed.

End Properties.

(* ================================================================== *)
(** * The value of d2 at n = 2 *)
(* ================================================================== *)

(* ------------------------------------------------------------------ *)
(** ** Partial sums of the exponential series *)
(* ------------------------------------------------------------------ *)

Lemma derivable_pt_lim_eq (f : R -> R) (x l l' : R) :
  l = l' -> derivable_pt_lim f x l -> derivable_pt_lim f x l'.
Proof. now intros ->. Qed.

Lemma exp_neg_term_deriv (n : nat) (y : R) :
  derivable_pt_lim (fun t => (- t) ^ S n / INR (fact (S n))) y
                   (- ((- y) ^ n / INR (fact n))).
Proof.
  assert (H1 : derivable_pt_lim (fun t => - t) y (-1)).
  { apply (derivable_pt_lim_ext (opp_fct id)); [reflexivity|].
    apply derivable_pt_lim_opp, derivable_pt_lim_id. }
  assert (H2 : derivable_pt_lim (fun t => (- t) ^ S n) y
                 (INR (S n) * (- y) ^ n * -1)).
  { apply (derivable_pt_lim_ext (comp (fun t => t ^ S n) (fun t => - t)));
      [reflexivity|].
    apply derivable_pt_lim_comp; [exact H1|].
    apply (derivable_pt_lim_pow (- y) (S n)). }
  apply (derivable_pt_lim_ext
           (mult_real_fct (/ INR (fact (S n))) (fun t => (- t) ^ S n))).
  { intros t; unfold mult_real_fct; field; apply INR_fact_neq_0. }
  eapply derivable_pt_lim_eq; [| apply derivable_pt_lim_scal, H2].
  rewrite fact_simpl, mult_INR.
  field; split; [apply INR_fact_neq_0 | apply not_0_INR; discriminate].
Qed.

Lemma exp_neg_poly_deriv (n : nat) (y : R) :
  derivable_pt_lim (exp_neg_poly (S n)) y (- exp_neg_poly n y).
Proof.
  induction n as [|n IH].
  - apply (derivable_pt_lim_ext
             (plus_fct (fun _ => 1) (fun t => (- t) ^ 1 / INR (fact 1))));
      [reflexivity|].
    eapply derivable_pt_lim_eq;
      [| apply derivable_pt_lim_plus;
         [apply derivable_pt_lim_const | apply exp_neg_term_deriv]].
    simpl; field.
  - apply (derivable_pt_lim_ext
             (plus_fct (exp_neg_poly (S n))
                (fun t => (- t) ^ S (S n) / INR (fact (S (S n))))));
      [reflexivity|].
    eapply derivable_pt_lim_eq;
      [| apply derivable_pt_lim_plus; [exact IH | apply exp_neg_term_deriv]].
    cbn [exp_neg_poly]; ring.
Qed.

Lemma exp_neg_poly_0 (n : nat) : exp_neg_poly n 0 = 1.
Proof.
  induction n as [|n IH]; [reflexivity|].
  cbn [exp_neg_poly]; rewrite IH, Ropp_0, pow_i by lia.
  unfold Rdiv; ring.
Qed.

Lemma exp_neg_deriv (y : R) :
  derivable_pt_lim (fun t => exp (- t)) y (- exp (- y)).
Proof.
  apply (derivable_pt_lim_ext (comp exp (fun t => - t))); [reflexivity|].
  eapply derivable_pt_lim_eq;
    [| apply derivable_pt_lim_comp;
       [apply (derivable_pt_lim_ext (opp_fct id)); [reflexivity|];
        apply derivable_pt_lim_opp, derivable_pt_lim_id
       | apply derivable_pt_lim_exp]].
  ring.
Qed.

(** A function with non-negative derivative on [a, b] does not decrease. *)
Lemma deriv_nonneg_le (f f' : R -> R) (a b : R) :
  a <= b ->
  (forall c, a <= c <= b -> derivable_pt_lim f c (f' c)) ->
  (forall c, a <= c <= b -> 0 <= f' c) ->
  f a <= f b.
Proof.
  intros [Hab | ->] Hd Hs; [|lra].
  destruct (MVT_cor2 f f' a b Hab Hd) as (c & Hc & Hc').
  assert (0 <= f' c) by (apply Hs; lra).
  assert (0 <= f' c * (b - a)) by (apply Rmult_le_pos; lra).
  lra.
Qed.

(** The partial sums of the exponential series at [-y] enclose [exp (-y)]. *)
Lemma exp_neg_poly_bounds (n : nat) (y : R) :
  0 <= y ->
  if Nat.even n then exp (- y) <= exp_neg_poly n y
  else exp_neg_poly n y <= exp (- y).
Proof.
  revert y; induction n as [|n IH]; intros y Hy.
  - simpl. rewrite <- exp_0.
    destruct Hy as [Hy | <-]; [left; apply exp_increasing; lra | rewrite Ropp_0; lra].
  - rewrite Nat.even_succ, <- Nat.negb_even.
    destruct (Nat.even n) eqn:En; cbn [negb].
    + pose proof (deriv_nonneg_le
                    (fun t => exp (- t) - exp_neg_poly (S n) t)
                    (fun t => - exp (- t) - - exp_neg_poly n t) 0 y Hy) as H.
      cbv beta in H; rewrite exp_neg_poly_0, Ropp_0, exp_0 in H.
      enough (1 - 1 <= exp (- y) - exp_neg_poly (S n) y) by lra.
      apply H.
      * intros c _.
        apply (derivable_pt_lim_ext
                 (minus_fct (fun t => exp (- t)) (exp_neg_poly (S n))));
          [reflexivity|].
        apply derivable_pt_lim_minus;
          [apply exp_neg_deriv | apply exp_neg_poly_deriv].
      * intros c [Hc _]; specialize (IH c Hc); lra.
    + pose proof (deriv_nonneg_le
                    (fun t => exp_neg_poly (S n) t - exp (- t))
                    (fun t => - exp_neg_poly n t - - exp (- t)) 0 y Hy) as H.
      cbv beta in H; rewrite exp_neg_poly_0, Ropp_0, exp_0 in H.
      enough (1 - 1 <= exp_neg_poly (S n) y - exp (- y)) by lra.
      apply H.
      * intros c _.
        apply (derivable_pt_lim_ext
                 (minus_fct (exp_neg_poly (S n)) (fun t => exp (- t))));
          [reflexivity|].
        apply derivable_pt_lim_minus;
          [apply exp_neg_poly_deriv | apply exp_neg_deriv].
      * intros c [Hc _]; specialize (IH c Hc); lra.
Qed.

(* ------------------------------------------------------------------ *)
(** ** Partial sums of the integral of the density *)
(* ------------------------------------------------------------------ *)

Lemma sqrt_2PI_pos : 0 < sqrt (2 * PI).
Proof. apply sqrt_lt_R0; pose proof PI_RGT_0; lra. Qed.

Lemma pow_neg_half_sq (x : R) (k : nat) :
  (- (x ^ 2 / 2)) ^ k = (- (1 / 2)) ^ k * x ^ (2 * k).
Proof.
  replace (- (x ^ 2 / 2)) with (- (1 / 2) * x ^ 2) by field.
  now rewrite Rpow_mult_distr, <- pow_mult.
Qed.

Lemma gauss_term_deriv (k : nat) (x : R) :
  derivable_pt_lim (gauss_term k) x ((- (x ^ 2 / 2)) ^ k / INR (fact k)).
Proof.
  apply (derivable_pt_lim_ext
           (mult_real_fct ((- (1 / 2)) ^ k / (INR (fact k) * INR (2 * k + 1)))
                          (fun t => t ^ (2 * k + 1)))).
  { intros t; unfold mult_real_fct, gauss_term; field.
    split; (apply INR_fact_neq_0 || (apply not_0_INR; lia)). }
  eapply derivable_pt_lim_eq;
    [| apply derivable_pt_lim_scal, derivable_pt_lim_pow].
  replace (pred (2 * k + 1)) with (2 * k)%nat by lia.
  rewrite pow_neg_half_sq; field.
  split; (apply INR_fact_neq_0 || (apply not_0_INR; lia)).
Qed.

Lemma gauss_poly_deriv (n : nat) (x : R) :
  derivable_pt_lim (gauss_poly n) x (exp_neg_poly n (x ^ 2 / 2)).
Proof.
  induction n as [|n IH].
  - eapply derivable_pt_lim_eq; [| apply (gauss_term_deriv 0)].
    simpl; field.
  - apply (derivable_pt_lim_ext (plus_fct (gauss_poly n) (gauss_term (S n))));
      [reflexivity|].
    cbn [exp_neg_poly].
    apply derivable_pt_lim_plus; [exact IH | apply gauss_term_deriv].
Qed.

Lemma gauss_term_0 (k : nat) : gauss_term k 0 = 0.
Proof.
  unfold gauss_term; rewrite pow_i by lia; unfold Rdiv; ring.
Qed.

Lemma gauss_poly_0 (n : nat) : gauss_poly n 0 = 0.
Proof.
  induction n as [|n IH]; cbn [gauss_poly]; rewrite ?IH, gauss_term_0; ring.
Qed.

Section NormalLaw.

(** Facts about any function [F] with the standard normal density as
    derivative on [[-20, 20]] and the value one half at zero. *)

Variable F : R -> R.
Hypothesis F_deriv :
  forall x, -20 <= x <= 20 -> derivable_pt_lim F x (std_pdf x).
Hypothesis F_zero : F 0 = 1 / 2.

Lemma dev_deriv (x : R) :
  -20 <= x <= 20 -> derivable_pt_lim (dev F) x (exp (- (x ^ 2 / 2))).
Proof.
  intros Hx.
  apply (derivable_pt_lim_ext
           (mult_real_fct (sqrt (2 * PI)) (minus_fct F (fun _ => 1 / 2))));
    [reflexivity|].
  eapply derivable_pt_lim_eq;
    [| apply derivable_pt_lim_scal, derivable_pt_lim_minus;
       [apply F_deriv, Hx | apply derivable_pt_lim_const]].
  unfold std_pdf; field; apply Rgt_not_eq, sqrt_2PI_pos.
Qed.

Lemma dev_0 : (dev F) 0 = 0.
Proof. unfold dev; rewrite F_zero; ring. Qed.

(** On [0, 20] the odd partial sums are below [dev F] and the even ones
    above. *)
Lemma dev_enclosure (n : nat) (x : R) :
  0 <= x <= 20 ->
  if Nat.even n then (dev F) x <= gauss_poly n x else gauss_poly n x <= (dev F) x.
Proof.
  intros Hx.
  pose proof (exp_neg_poly_bounds n) as HB.
  destruct (Nat.even n).
  - pose proof (deriv_nonneg_le
                  (fun t => gauss_poly n t - (dev F) t)
                  (fun t => exp_neg_poly n (t ^ 2 / 2) - exp (- (t ^ 2 / 2)))
                  0 x (proj1 Hx)) as H.
    cbv beta in H; rewrite gauss_poly_0, dev_0 in H.
    enough (0 - 0 <= gauss_poly n x - (dev F) x) by lra.
    apply H.
    + intros c Hc.
      apply (derivable_pt_lim_ext (minus_fct (gauss_poly n) (dev F)));
        [reflexivity|].
      apply derivable_pt_lim_minus;
        [apply gauss_poly_deriv | apply dev_deriv; lra].
    + intros c Hc.
      assert (0 <= c ^ 2 / 2) by (pose proof (pow2_ge_0 c); lra).
      specialize (HB (c ^ 2 / 2) H0); lra.
  - pose proof (deriv_nonneg_le
                  (fun t => (dev F) t - gauss_poly n t)
                  (fun t => exp (- (t ^ 2 / 2)) - exp_neg_poly n (t ^ 2 / 2))
                  0 x (proj1 Hx)) as H.
    cbv beta in H; rewrite gauss_poly_0, dev_0 in H.
    enough (0 - 0 <= (dev F) x - gauss_poly n x) by lra.
    apply H.
    + intros c Hc.
      apply (derivable_pt_lim_ext (minus_fct (dev F) (gauss_poly n)));
        [reflexivity|].
      apply derivable_pt_lim_minus;
        [apply dev_deriv; lra | apply gauss_poly_deriv].
    + intros c Hc.
      assert (0 <= c ^ 2 / 2) by (pose proof (pow2_ge_0 c); lra).
      specialize (HB (c ^ 2 / 2) H0); lra.
Qed.

(** Beyond [a >= 0] the deviation grows, by at most [exp (- a^2 / 2)] per
    unit. *)
Lemma dev_tail (a x : R) :
  0 <= a <= x -> x <= 20 ->
  (dev F) a <= (dev F) x <= (dev F) a + (x - a) * exp (- (a ^ 2 / 2)).
Proof.
  intros [Ha Hax] Hx; split.
  - apply (deriv_nonneg_le (dev F) (fun t => exp (- (t ^ 2 / 2)))); [exact Hax | |].
    + intros c Hc; apply dev_deriv; lra.
    + intros c _; left; apply exp_pos.
  - pose proof (deriv_nonneg_le
                  (fun t => (t - a) * exp (- (a ^ 2 / 2)) - (dev F) t)
                  (fun t => exp (- (a ^ 2 / 2)) - exp (- (t ^ 2 / 2)))
                  a x Hax) as H.
    cbv beta in H.
    enough ((a - a) * exp (- (a ^ 2 / 2)) - (dev F) a
            <= (x - a) * exp (- (a ^ 2 / 2)) - (dev F) x) by lra.
    apply H.
    + intros c Hc.
      apply (derivable_pt_lim_ext
               (minus_fct
                  (mult_real_fct (exp (- (a ^ 2 / 2)))
                     (minus_fct id (fun _ => a))) (dev F))).
      { intros t; unfold minus_fct, mult_real_fct, id; ring. }
      eapply derivable_pt_lim_eq;
        [| apply derivable_pt_lim_minus;
           [apply derivable_pt_lim_scal, derivable_pt_lim_minus;
            [apply derivable_pt_lim_id | apply derivable_pt_lim_const]
           | apply dev_deriv; lra]].
      ring.
    + intros c Hc.
      enough (exp (- (c ^ 2 / 2)) <= exp (- (a ^ 2 / 2))) by lra.
      destruct (Req_dec a c) as [->|Hne]; [lra|].
      left; apply exp_increasing.
      assert (a ^ 2 < c ^ 2) by (simpl; nra).
      lra.
Qed.

End NormalLaw.

(* ------------------------------------------------------------------ *)
(** ** Existence of the distribution function *)
(* ------------------------------------------------------------------ *)

Lemma std_pdf_continuity : continuity std_pdf.
Proof.
  apply derivable_continuous; unfold std_pdf; reg.
Qed.

Lemma normal_cdf_exists : exists F, is_normal_cdf F.
Proof.
  assert (h : -20 <= 20) by lra.
  assert (C0 : forall x, -20 <= x <= 20 -> continuity_pt std_pdf x)
    by (intros x _; apply std_pdf_continuity).
  pose (P := primitive h (FTC_P1 h C0)).
  exists (fun x => 1 / 2 + (P x - P 0)); split; [ring|].
  intros x Hx.
  apply (derivable_pt_lim_ext
           (plus_fct (fun _ => 1 / 2 - P 0) P)).
  { intros t; unfold plus_fct; ring. }
  eapply derivable_pt_lim_eq;
    [| apply derivable_pt_lim_plus;
       [apply derivable_pt_lim_const | apply (RiemannInt_P28 h C0 Hx)]].
  ring.
Qed.

Lemma normal_cdf_spec : is_normal_cdf normal_cdf.
Proof. unfold normal_cdf; apply epsilon_spec, normal_cdf_exists. Qed.

(* ------------------------------------------------------------------ *)
(** ** Soundness of the fixed-point evaluation *)
(* ------------------------------------------------------------------ *)

Lemma fx_scale_pos : 0 < IZR fx_scale.
Proof. apply IZR_lt; reflexivity. Qed.

Lemma IZR_div_floor (a b : Z) : (0 < b)%Z -> IZR (a / b) <= IZR a / IZR b.
Proof.
  intros Hb; assert (0 < IZR b) by now apply IZR_lt.
  apply Rmult_le_reg_r with (IZR b); [assumption|].
  unfold Rdiv; rewrite Rmult_assoc, Rinv_l, Rmult_1_r by lra.
  rewrite <- mult_IZR; apply IZR_le.
  rewrite Z.mul_comm; now apply Z.mul_div_le.
Qed.

Lemma IZR_div_ceil (a b : Z) : (0 < b)%Z -> IZR a / IZR b <= IZR (cdiv a b).
Proof.
  intros Hb; unfold cdiv; rewrite opp_IZR.
  pose proof (IZR_div_floor (- a) b Hb) as H.
  rewrite opp_IZR in H; unfold Rdiv in *; lra.
Qed.

Lemma pow_m1_parity (k : nat) : (-1) ^ k = if Nat.even k then 1 else -1.
Proof.
  induction k as [|k IH]; [reflexivity|].
  rewrite Nat.even_succ, <- Nat.negb_even; cbn [pow]; rewrite IH.
  destruct (Nat.even k); cbn [negb]; ring.
Qed.

Lemma gauss_term_abs (k : nat) (x : R) :
  gauss_term k x = if Nat.even k then gauss_abs k x else - gauss_abs k x.
Proof.
  unfold gauss_term, gauss_abs.
  replace (- (1 / 2)) with (-1 * (1 / 2)) by lra.
  rewrite Rpow_mult_distr, pow_m1_parity.
  destruct (Nat.even k); unfold Rdiv; ring.
Qed.

Lemma gauss_abs_0 (x : R) : gauss_abs 0 x = x.
Proof. unfold gauss_abs; simpl; field. Qed.

Lemma gauss_abs_succ (k : nat) (x : R) :
  gauss_abs (S k) x
  = gauss_abs k x
    * (x * x * (2 * INR k + 1) / (2 * (INR k + 1) * (2 * INR k + 3))).
Proof.
  unfold gauss_abs.
  replace (2 * S k + 1)%nat with (S (S (2 * k + 1))) by lia.
  rewrite fact_simpl, mult_INR, !S_INR, plus_INR, mult_INR; cbn [pow INR].
  pose proof (pos_INR k).
  field; repeat split; try lra; apply INR_fact_neq_0.
Qed.

Lemma gauss_abs_nonneg (k : nat) (x : R) : 0 <= x -> 0 <= gauss_abs k x.
Proof.
  intros Hx; unfold gauss_abs.
  apply Rmult_le_pos.
  - apply Rmult_le_pos; apply pow_le; lra.
  - left; apply Rinv_0_lt_compat, Rmult_lt_0_compat;
      [apply INR_fact_lt_0 | apply lt_0_INR; lia].
Qed.

(** The state after [n] steps bounds the n-th term and the n-th partial
    sum. *)
Lemma giter_sound (j : Z) (n : nat) :
  (0 <= j)%Z ->
  let x := IZR j / 25 in
  let s := giter j n in
  (0 <= tlo s)%Z
  /\ fx (tlo s) <= gauss_abs n x <= fx (thi s)
  /\ fx (slo s) <= gauss_poly n x <= fx (shi s).
Proof.
  intros Hj x; pose proof fx_scale_pos as HS.
  assert (Hx : 0 <= x).
  { unfold x; apply IZR_le in Hj; unfold Rdiv; lra. }
  induction n as [|n IH]; intros s.
  - unfold s; cbn [giter ginit tlo thi slo shi gauss_poly].
    rewrite gauss_term_abs; cbn [Nat.even]; rewrite gauss_abs_0.
    assert (H1 : fx (j * fx_scale / 25) <= x).
    { unfold fx, x.
      pose proof (IZR_div_floor (j * fx_scale) 25 eq_refl) as H.
      rewrite mult_IZR in H.
      apply Rmult_le_reg_r with (IZR fx_scale); [assumption|].
      unfold Rdiv in *; rewrite Rmult_assoc, Rinv_l, Rmult_1_r by lra; lra. }
    assert (H2 : x <= fx (cdiv (j * fx_scale) 25)).
    { unfold fx, x.
      pose proof (IZR_div_ceil (j * fx_scale) 25 eq_refl) as H.
      rewrite mult_IZR in H.
      apply Rmult_le_reg_r with (IZR fx_scale); [assumption|].
      unfold Rdiv in *; rewrite (Rmult_assoc (IZR (cdiv _ _))), Rinv_l, Rmult_1_r by lra; lra. }
    repeat split; try assumption.
    apply Z.div_pos; [|reflexivity].
    apply Z.mul_nonneg_nonneg; [assumption | discriminate].
  - destruct IH as (Ht0 & [Htl Hth] & [Hsl Hsh]).
    set (s0 := giter j n) in *.
    set (kz := Z.of_nat n).
    set (num := (j * j * (2 * kz + 1))%Z).
    set (den := (1250 * (kz + 1) * (2 * kz + 3))%Z).
    assert (Hkz : (0 <= kz)%Z) by apply Nat2Z.is_nonneg.
    assert (Hden : (0 < den)%Z) by (unfold den; nia).
    assert (Hnum : (0 <= num)%Z) by (unfold num; nia).
    assert (Hrho : x * x * (2 * INR n + 1) / (2 * (INR n + 1) * (2 * INR n + 3))
                   = IZR num / IZR den).
    { unfold num, den, kz, x.
      rewrite !mult_IZR, !plus_IZR, !mult_IZR, <- !INR_IZR_INZ.
      pose proof (pos_INR n); field; lra. }
    assert (Hden' : 0 < IZR den) by now apply IZR_lt.
    assert (Hnum' : 0 <= IZR num) by now apply IZR_le.
    assert (Hrho0 : 0 <= IZR num / IZR den).
    { unfold Rdiv; apply Rmult_le_pos;
        [assumption | left; now apply Rinv_0_lt_compat]. }
    set (tl := (tlo s0 * num / den)%Z).
    set (th := cdiv (thi s0 * num) den).
    assert (Htl' : fx tl <= gauss_abs (S n) x).
    { rewrite gauss_abs_succ, Hrho.
      apply Rle_trans with (fx (tlo s0) * (IZR num / IZR den));
        [| now apply Rmult_le_compat_r].
      unfold fx, tl.
      pose proof (IZR_div_floor (tlo s0 * num) den Hden) as H.
      rewrite mult_IZR in H.
      apply Rmult_le_reg_r with (IZR fx_scale); [assumption|].
      unfold Rdiv in *.
      replace (IZR (tlo s0 * num / den) * / IZR fx_scale * IZR fx_scale)
        with (IZR (tlo s0 * num / den)) by (field; lra).
      replace (IZR (tlo s0) * / IZR fx_scale * (IZR num * / IZR den)
               * IZR fx_scale)
        with (IZR (tlo s0) * IZR num * / IZR den) by (field; lra).
      exact H. }
    assert (Hth' : gauss_abs (S n) x <= fx th).
    { rewrite gauss_abs_succ, Hrho.
      apply Rle_trans with (fx (thi s0) * (IZR num / IZR den));
        [now apply Rmult_le_compat_r|].
      unfold fx, th.
      pose proof (IZR_div_ceil (thi s0 * num) den Hden) as H.
      rewrite mult_IZR in H.
      apply Rmult_le_reg_r with (IZR fx_scale); [assumption|].
      unfold Rdiv in *.
      replace (IZR (cdiv (thi s0 * num) den) * / IZR fx_scale * IZR fx_scale)
        with (IZR (cdiv (thi s0 * num) den)) by (field; lra).
      replace (IZR (thi s0) * / IZR fx_scale * (IZR num * / IZR den)
               * IZR fx_scale)
        with (IZR (thi s0) * IZR num * / IZR den) by (field; lra).
      exact H. }
    assert (Htl0 : (0 <= tl)%Z).
    { unfold tl; apply Z.div_pos; [nia | assumption]. }
    unfold s; cbn [giter]; fold s0; unfold gstep.
    fold kz; fold num; fold den; fold tl; fold th.
    cbn [gauss_poly]; rewrite gauss_term_abs, Nat.even_succ, <- Nat.negb_even.
    destruct (Nat.even n); cbn [negb tlo thi slo shi];
      (split; [assumption|]); (split; [split; assumption|]);
      unfold fx in *; rewrite ?minus_IZR, ?plus_IZR; unfold Rdiv in *;
      split; lra.
Qed.

(* ------------------------------------------------------------------ *)
(** ** The sums over the grid *)
(* ------------------------------------------------------------------ *)

(** The two sums, computed. *)
Lemma grid_sums_check :
  ((29643 * fx_scale * fx_scale <=? 10 * fst grid_sums)%Z
   && (10 * snd grid_sums <=? 29644 * fx_scale * fx_scale)%Z)%bool = true.
Proof. vm_compute; reflexivity. Qed.

Lemma grid_sums_eq :
  grid_sums = (Ztrapz (map fst grid_sq_ranges), Ztrapz (map snd grid_sq_ranges)).
Proof. reflexivity. Qed.

Lemma exp_INR_mult (n : nat) (t : R) : exp (INR n * t) = exp t ^ n.
Proof.
  induction n as [|n IH]; [simpl; rewrite Rmult_0_l; apply exp_0|].
  rewrite S_INR, Rmult_plus_distr_r, Rmult_1_l, exp_plus, IH; simpl; ring.
Qed.

Lemma exp18_bound : exp (- (6 ^ 2 / 2)) <= fx exp18_hi.
Proof.
  replace (- (6 ^ 2 / 2)) with (INR 72 * - (1 / 4))
    by (rewrite INR_IZR_INZ; simpl; lra).
  rewrite exp_INR_mult.
  assert (H : exp (- (1 / 4)) <= 25 / 32).
  { pose proof (exp_neg_poly_bounds 2 (1 / 4)) as H; simpl in H; lra. }
  apply Rle_trans with ((25 / 32) ^ 72);
    [apply pow_incr; split; [left; apply exp_pos | exact H]|].
  apply Rle_trans with (2 / 100000000).
  - replace (25 / 32) with (IZR 25 / IZR 32) by reflexivity.
    unfold Rdiv at 1; rewrite Rpow_mult_distr, pow_inv, !pow_IZR.
    apply Rmult_le_reg_r with (IZR (32 ^ Z.of_nat 72));
      [apply IZR_lt; reflexivity|].
    rewrite Rmult_assoc, Rinv_l, Rmult_1_r
      by (apply Rgt_not_eq, IZR_lt; reflexivity).
    apply Rmult_le_reg_r with 100000000; [lra|].
    replace (2 / 100000000 * IZR (32 ^ Z.of_nat 72) * 100000000)
      with (IZR 2 * IZR (32 ^ Z.of_nat 72)) by (field).
    rewrite <- !mult_IZR; apply IZR_le; vm_compute; discriminate.
  - unfold fx, exp18_hi.
    pose proof (IZR_div_ceil (2 * fx_scale) 100000000 eq_refl) as H0.
    pose proof fx_scale_pos.
    rewrite mult_IZR in H0.
    apply Rmult_le_reg_r with (IZR fx_scale); [assumption|].
    unfold Rdiv in *.
    rewrite (Rmult_assoc (IZR (cdiv _ _))), Rinv_l, Rmult_1_r by lra; lra.
Qed.

Lemma fx_plus (a b : Z) : fx (a + b) = fx a + fx b.
Proof. unfold fx; rewrite plus_IZR; unfold Rdiv; ring. Qed.

Lemma fx_mult_const (k a : Z) : fx (k * a) = IZR k * fx a.
Proof. unfold fx; rewrite mult_IZR; unfold Rdiv; ring. Qed.

Lemma fx2_sqr (z : Z) : fx2 (z ^ 2) = fx z * fx z.
Proof.
  unfold fx2, fx; pose proof fx_scale_pos.
  replace (z ^ 2)%Z with (z * z)%Z by ring.
  rewrite mult_IZR; field; lra.
Qed.

Lemma fx_le (a b : Z) : (a <= b)%Z -> fx a <= fx b.
Proof.
  intros H; unfold fx; pose proof fx_scale_pos.
  apply Rmult_le_compat_r; [left; now apply Rinv_0_lt_compat | now apply IZR_le].
Qed.

Lemma sq_range_sound (lo hi : Z) (v : R) :
  fx lo <= v <= fx hi ->
  fx2 (fst (sq_range (lo, hi))) <= v * v <= fx2 (snd (sq_range (lo, hi))).
Proof.
  intros [Hl Hh]; unfold sq_range; cbn [fst snd]; rewrite !fx2_sqr; split.
  - destruct (Z.max_spec lo 0) as [[H ->] | [H ->]].
    + unfold fx at 1 2; unfold Rdiv; rewrite !Rmult_0_l.
      pose proof (Rle_0_sqr v) as Hs; unfold Rsqr in Hs; lra.
    + assert (0 <= fx lo).
      { replace 0 with (fx 0) by (unfold fx, Rdiv; ring). now apply fx_le. }
      nra.
  - assert (H1 : v <= fx (Z.max (- lo) hi)).
    { apply Rle_trans with (fx hi); [assumption | apply fx_le, Z.le_max_r]. }
    assert (H2 : - v <= fx (Z.max (- lo) hi)).
    { apply Rle_trans with (fx (- lo)); [| apply fx_le, Z.le_max_l].
      unfold fx in *; rewrite opp_IZR; unfold Rdiv in *; lra. }
    nra.
Qed.

Section Enclosure.

Variable F : R -> R.
Hypothesis F_deriv :
  forall x, -20 <= x <= 20 -> derivable_pt_lim F x (std_pdf x).
Hypothesis F_zero : F 0 = 1 / 2.

Lemma grid_point_range (j : Z) :
  (0 <= j <= 500)%Z -> 0 <= IZR j / 25 <= 20.
Proof.
  intros [H1 H2]; apply IZR_le in H1, H2; unfold Rdiv; lra.
Qed.

Lemma dev_bounds_sound (j : Z) :
  (0 <= j <= 500)%Z ->
  fx (fst (dev_bounds j)) <= dev F (IZR j / 25) <= fx (snd (dev_bounds j)).
Proof.
  intros Hj; pose proof (grid_point_range j Hj) as Hx.
  unfold dev_bounds, gauss_order; cbv zeta; cbn [fst snd].
  set (m := (6 + Z.to_nat (j * j / 700))%nat).
  destruct (giter_sound j (S (2 * m)) (proj1 Hj)) as (_ & [_ Ha] & [Hs1 Hs2]).
  pose proof (dev_enclosure F F_deriv F_zero (S (2 * m)) _ Hx) as Hodd.
  pose proof (dev_enclosure F F_deriv F_zero (2 * m) _ Hx) as Hev.
  assert (E : Nat.even (2 * m) = true)
    by (rewrite Nat.even_mul; reflexivity).
  rewrite Nat.even_succ, <- Nat.negb_even, E in Hodd; cbn [negb] in Hodd.
  rewrite E in Hev.
  assert (Hp : gauss_poly (S (2 * m)) (IZR j / 25)
               = gauss_poly (2 * m) (IZR j / 25)
                 - gauss_abs (S (2 * m)) (IZR j / 25)).
  { cbn [gauss_poly]; rewrite gauss_term_abs.
    rewrite Nat.even_succ, <- Nat.negb_even, E; cbn [negb]; ring. }
  rewrite fx_plus; split; lra.
Qed.

Lemma dev_sq_bounds (j : Z) :
  (0 <= j <= 500)%Z ->
  let r := grid_range tail_range j in
  fx2 (fst r) <= dev F (IZR j / 25) * dev F (IZR j / 25) <= fx2 (snd r).
Proof.
  intros Hj r; unfold r, grid_range.
  destruct (Z.leb_spec j central) as [Hc | Hc].
  - rewrite (surjective_pairing (dev_bounds j)).
    apply sq_range_sound, dev_bounds_sound, Hj.
  - unfold tail_range; apply sq_range_sound.
    pose proof (dev_bounds_sound central) as H6.
    assert (E6 : IZR central / 25 = 6) by (unfold central; lra).
    rewrite E6 in H6; specialize (H6 ltac:(unfold central; lia)).
    pose proof (grid_point_range j Hj) as Hx.
    assert (H6x : 6 <= IZR j / 25).
    { unfold central in Hc; apply IZR_lt in Hc; unfold Rdiv; lra. }
    pose proof (dev_tail F F_deriv 6 (IZR j / 25) ltac:(lra) (proj2 Hx))
      as [Ht1 Ht2].
    pose proof exp18_bound as He.
    pose proof (exp_pos (- (6 ^ 2 / 2))) as Hpos.
    cbn [fst snd]; unfold tail_slack; rewrite fx_plus, fx_mult_const.
    split; [lra|].
    assert ((IZR j / 25 - 6) * exp (- (6 ^ 2 / 2)) <= 14 * fx exp18_hi).
    { apply Rmult_le_compat; lra. }
    lra.
Qed.

End Enclosure.

(** The mirror image [1 - F (- x)] of a normal distribution function is one
    too. *)
Lemma std_pdf_even (x : R) : std_pdf (- x) = std_pdf x.
Proof. unfold std_pdf; now replace ((- x) ^ 2) with (x ^ 2) by ring. Qed.

Lemma mirror_deriv (F : R -> R) :
  (forall x, -20 <= x <= 20 -> derivable_pt_lim F x (std_pdf x)) ->
  forall x, -20 <= x <= 20 ->
    derivable_pt_lim (fun t => 1 - F (- t)) x (std_pdf x).
Proof.
  intros HF x Hx.
  apply (derivable_pt_lim_ext
           (minus_fct (fun _ => 1) (mirr_fct F))); [reflexivity|].
  eapply derivable_pt_lim_eq;
    [| apply derivable_pt_lim_minus;
       [apply derivable_pt_lim_const
       | apply (derivable_pt_lim_mirr_fwd F x (- std_pdf (- x)));
         rewrite Ropp_involutive; apply HF; lra]].
  rewrite std_pdf_even; ring.
Qed.

Lemma dev_mirror (F : R -> R) (x : R) :
  dev (fun t => 1 - F (- t)) x = - dev F (- x).
Proof. unfold dev; cbv beta; field. Qed.

(* ------------------------------------------------------------------ *)
(** ** Comparison with 2 / sqrt PI *)
(* ------------------------------------------------------------------ *)

Lemma PI_bounds : 314159 / 100000 <= PI <= 31416 / 10000.
Proof.
  pose proof (PI_2_3_7_ineq 3) as [H1 H2].
  unfold sum_f_R0, tg_alt, PI_2_3_7_tg, Ratan_seq in H1, H2.
  simpl in H1, H2.
  split; lra.
Qed.

Lemma d2_grid_seq : d2_grid = map grid_point (seq 0 1001).
Proof.
  unfold d2_grid; rewrite (seq_S 1000 0), map_app; f_equal.
  cbn [map Nat.add]; unfold grid_point; rewrite d2_step_val, INR_IZR_INZ.
  change (Z.of_nat 1000) with 1000%Z; f_equal; lra.
Qed.

Lemma grid_point_val (i : nat) :
  grid_point i = IZR (Z.of_nat i - 500) / 25.
Proof.
  unfold grid_point; rewrite d2_step_val, INR_IZR_INZ, minus_IZR; lra.
Qed.

Lemma Rtrapz_affine (a b h : R) (zs : list Z) :
  Rtrapz (map (fun z => a - IZR z * b) zs) h
  = h * (a * INR (length zs - 1) - b * IZR (Ztrapz zs) / 2).
Proof.
  induction zs as [|u zs IH]; [simpl; lra|].
  destruct zs as [|v t]; [simpl; lra|].
  cbn [map] in IH |- *; rewrite Rtrapz_cons2, IH.
  change (Ztrapz (u :: v :: t)) with (v + u + Ztrapz (v :: t))%Z.
  cbn [length]; rewrite !Nat.sub_succ, !Nat.sub_0_r, S_INR, !plus_IZR; lra.
Qed.

Section D2Two.

Variable ndtr : R -> R.
Hypothesis ndtr_deriv :
  forall x, -20 <= x <= 20 -> derivable_pt_lim ndtr x (std_pdf x).
Hypothesis ndtr_zero : ndtr 0 = 1 / 2.

Lemma integrand_dev (x : R) :
  d2_integrand (ndtr x) 2 = 1 / 2 - dev ndtr x * dev ndtr x / PI.
Proof.
  rewrite d2_integrand_2; unfold dev.
  pose proof PI_RGT_0 as Hpi.
  assert (Hc : sqrt (2 * PI) * sqrt (2 * PI) = 2 * PI)
    by (apply sqrt_sqrt; lra).
  replace (sqrt (2 * PI) * (ndtr x - 1 / 2) * (sqrt (2 * PI) * (ndtr x - 1 / 2)))
    with (sqrt (2 * PI) * sqrt (2 * PI) * ((ndtr x - 1 / 2) * (ndtr x - 1 / 2)))
    by ring.
  rewrite Hc; field; lra.
Qed.

Lemma grid_sq_bounds (i : nat) :
  (i <= 1000)%nat ->
  let r := grid_range tail_range (Z.abs (Z.of_nat i - 500)) in
  fx2 (fst r)
  <= dev ndtr (grid_point i) * dev ndtr (grid_point i)
  <= fx2 (snd r).
Proof.
  intros Hi; rewrite grid_point_val.
  set (z := (Z.of_nat i - 500)%Z).
  destruct (Z.le_gt_cases 0 z) as [Hz | Hz].
  - rewrite Z.abs_eq by assumption.
    apply (dev_sq_bounds ndtr ndtr_deriv ndtr_zero); unfold z; lia.
  - rewrite Z.abs_neq by lia.
    pose proof (dev_sq_bounds (fun t => 1 - ndtr (- t))
                  (mirror_deriv ndtr ndtr_deriv)
                  ltac:(cbv beta; rewrite Ropp_0, ndtr_zero; lra)
                  (- z) ltac:(unfold z; lia)) as H.
    cbv zeta in H |- *.
    rewrite dev_mirror in H.
    replace (- (IZR (- z) / 25)) with (IZR z / 25) in H
      by (rewrite opp_IZR; lra).
    lra.
Qed.

Lemma grid_ranges_fst :
  map fst grid_sq_ranges
  = map (fun i => fst (grid_range tail_range (Z.abs (Z.of_nat i - 500))))
        (seq 0 1001).
Proof. unfold grid_sq_ranges; cbv zeta; now rewrite map_map. Qed.

Lemma grid_ranges_snd :
  map snd grid_sq_ranges
  = map (fun i => snd (grid_range tail_range (Z.abs (Z.of_nat i - 500))))
        (seq 0 1001).
Proof. unfold grid_sq_ranges; cbv zeta; now rewrite map_map. Qed.

Lemma length_grid_sq_ranges : length grid_sq_ranges = 1001%nat.
Proof.
  unfold grid_sq_ranges; cbv zeta; now rewrite length_map, length_seq.
Qed.

(** [d2_real 2] lies between the two sums computed in fixed point. *)
Lemma d2_real_two_enclosure :
  20 - fx2 (snd grid_sums) / (50 * PI)
  <= d2_real ndtr 2
  <= 20 - fx2 (fst grid_sums) / (50 * PI).
Proof.
  pose proof PI_RGT_0 as Hpi.
  assert (Hinv : 0 < / PI) by now apply Rinv_0_lt_compat.
  pose proof fx_scale_pos as HS.
  set (b := / (IZR fx_scale * IZR fx_scale) * / PI).
  assert (Hb : 0 <= b).
  { unfold b; apply Rmult_le_pos; [|lra].
    left; apply Rinv_0_lt_compat, Rmult_lt_0_compat; assumption. }
  unfold d2_real; rewrite d2_grid_seq, map_map, d2_step_val.
  rewrite grid_sums_eq; cbn [fst snd].
  assert (EL : 20 - fx2 (Ztrapz (map fst grid_sq_ranges)) / (50 * PI)
               = Rtrapz (map (fun z => 1 / 2 - IZR z * b)
                             (map fst grid_sq_ranges)) (1 / 25)).
  { rewrite Rtrapz_affine, length_map, length_grid_sq_ranges.
    change (1001 - 1)%nat with 1000%nat; rewrite INR_IZR_INZ.
    change (Z.of_nat 1000) with 1000%Z.
    generalize (Ztrapz (map fst grid_sq_ranges)); intros z.
    unfold fx2, b; field; split; lra. }
  assert (EH : 20 - fx2 (Ztrapz (map snd grid_sq_ranges)) / (50 * PI)
               = Rtrapz (map (fun z => 1 / 2 - IZR z * b)
                             (map snd grid_sq_ranges)) (1 / 25)).
  { rewrite Rtrapz_affine, length_map, length_grid_sq_ranges.
    change (1001 - 1)%nat with 1000%nat; rewrite INR_IZR_INZ.
    change (Z.of_nat 1000) with 1000%Z.
    generalize (Ztrapz (map snd grid_sq_ranges)); intros z.
    unfold fx2, b; field; split; lra. }
  rewrite EL, EH, grid_ranges_fst, grid_ranges_snd, !map_map.
  split; apply Rtrapz_le; try lra; intros i Hi; rewrite in_seq in Hi;
    rewrite integrand_dev;
    pose proof (grid_sq_bounds i ltac:(lia)) as [H1 H2]; unfold fx2 in H1, H2;
    unfold b.
  - apply Rplus_le_compat_l, Ropp_le_contravar.
    unfold Rdiv; rewrite <- Rmult_assoc.
    apply Rmult_le_compat_r; [lra | exact H2].
  - apply Rplus_le_compat_l, Ropp_le_contravar.
    unfold Rdiv; rewrite <- Rmult_assoc.
    apply Rmult_le_compat_r; [lra | exact H1].
Qed.

End D2Two.

Lemma grid_sums_bounds :
  29643 / 10 <= fx2 (fst grid_sums) /\ fx2 (snd grid_sums) <= 29644 / 10.
Proof.
  pose proof grid_sums_check as H.
  apply andb_true_iff in H; destruct H as [H1 H2].
  apply Z.leb_le, IZR_le in H1, H2.
  rewrite !mult_IZR in H1, H2.
  pose proof fx_scale_pos as HS.
  assert (HS2 : 0 < IZR fx_scale * IZR fx_scale)
    by now apply Rmult_lt_0_compat.
  revert H1 H2; unfold fx2.
  generalize (IZR (fst grid_sums)) (IZR (snd grid_sums)); intros u v H1 H2.
  split.
  - apply Rmult_le_reg_r with (IZR fx_scale * IZR fx_scale); [assumption|].
    unfold Rdiv; rewrite (Rmult_assoc u), Rinv_l, Rmult_1_r by lra; lra.
  - apply Rmult_le_reg_r with (IZR fx_scale * IZR fx_scale); [assumption|].
    unfold Rdiv; rewrite (Rmult_assoc v), Rinv_l, Rmult_1_r by lra; lra.
Qed.

Lemma two_over_sqrt_PI_bounds :
  112837 / 100000 <= 2 / sqrt PI <= 112839 / 100000.
Proof.
  pose proof PI_bounds as [Hl Hu].
  assert (Hs : 0 < sqrt PI) by (apply sqrt_lt_R0; lra).
  assert (Hss : sqrt PI * sqrt PI = PI) by (apply sqrt_sqrt; lra).
  assert (H1 : sqrt PI <= 177246 / 100000) by nra.
  assert (H2 : 177245 / 100000 <= sqrt PI) by nra.
  split.
  - apply Rmult_le_reg_r with (sqrt PI); [assumption|].
    unfold Rdiv at 2; rewrite Rmult_assoc, Rinv_l, Rmult_1_r by lra; lra.
  - apply Rmult_le_reg_r with (sqrt PI); [assumption|].
    unfold Rdiv at 1; rewrite Rmult_assoc, Rinv_l, Rmult_1_r by lra; lra.
Qed.

Section D2TwoValue.

Variable ndtr : R -> R.
Hypothesis ndtr_deriv :
  forall x, -20 <= x <= 20 -> derivable_pt_lim ndtr x (std_pdf x).
Hypothesis ndtr_zero : ndtr 0 = 1 / 2.

Lemma d2_real_two_value : Rabs (d2_real ndtr 2 - 2 / sqrt PI) <= 1 / 1000.
Proof.
  pose proof (d2_real_two_enclosure ndtr ndtr_deriv ndtr_zero) as [Hlo Hhi].
  pose proof grid_sums_bounds as [HL HH].
  pose proof two_over_sqrt_PI_bounds as [Hq1 Hq2].
  pose proof PI_bounds as [Hp1 Hp2].
  assert (Hpi : 0 < PI) by lra.
  set (t := / (50 * PI)) in *.
  assert (Ht : t * (50 * PI) = 1) by (unfold t; field; lra).
  assert (Ht0 : 0 < t) by (unfold t; apply Rinv_0_lt_compat; lra).
  assert (Ht1 : 1 / (50 * (31416 / 10000)) <= t) by nra.
  assert (Ht2 : t <= 1 / (50 * (314159 / 100000))) by nra.
  unfold Rdiv in Hlo, Hhi; fold t in Hlo, Hhi.
  revert Hlo Hhi HL HH.
  generalize (fx2 (fst grid_sums)) (fx2 (snd grid_sums)); intros u v Hlo Hhi HL HH.
  assert (Hu : 29643 / 10 * (1 / (50 * (31416 / 10000))) <= u * t).
  { apply Rmult_le_compat; lra. }
  assert (Hv : v * t <= 29644 / 10 * (1 / (50 * (314159 / 100000)))).
  { apply Rle_trans with (29644 / 10 * t);
      [apply Rmult_le_compat_r | apply Rmult_le_compat_l]; lra. }
  apply Rabs_le; split; lra.
Qed.

(** C6: [calculate_d2(2)], the trapezoidal rule on the 1001 equally spaced
    points of [[-20, 20]], equals [2 / sqrt PI] to within [1e-3], when [ndtr]
    is the standard normal distribution function. *)
Theorem calculate_d2_two :
  exists d, calculate_d2 ndtr 2 = Fin d /\ Rabs (d - 2 / sqrt PI) <= 1 / 1000.
Proof.
  exists (d2_real ndtr 2); split;
    [apply calculate_d2_fin | apply d2_real_two_value].
Qed.

End D2TwoValue.

(* ================================================================== *)
(** * A window of one row *)
(* ================================================================== *)

Lemma window_range_one (xs v : list R) :
  In v (windows 1 xs) -> window_range v = 0.
Proof.
  intros H; destruct (windows_nonempty 1 xs v (le_n 1) H) as [Hne _].
  rewrite windows_seq, in_map_iff in H by lia.
  destruct H as (j & <- & _).
  destruct (skipn j xs) as [|x t]; [now contradiction Hne|].
  unfold window_range; simpl; lra.
Qed.

(** With [window = 1] every range is [0] and d2 is [0]: each row of
    [Rbar / d2] is [0 / 0] and the estimate is [nan], whatever the series. *)
Lemma std_within_window_one (ndtr : R -> R) (xs : list R) (LSL USL : float) :
  std_within (calculate_process ndtr (map Fin xs) LSL USL 1) = NaN.
Proof.
  destruct xs as [|a xs]; [apply std_within_short; simpl; lia|].
  unfold calculate_process; cbn [std_within].
  rewrite rolling_range_fin, calculate_d2_fin, d2_real_one
    by (cbn [length]; lia).
  unfold series_div, series_mean; cbn [repeat Nat.sub app]; rewrite map_map.
  rewrite (map_ext_in _ (fun _ => NaN)).
  - rewrite map_const, dropna_repeat_nan; apply fdiv_zero_zero.
  - intros v Hv; rewrite (window_range_one _ _ Hv); apply fdiv_zero_zero.
Qed.

(* ================================================================== *)
(** * Further properties of calculate_d2 *)
(* ================================================================== *)

Lemma pow_lt_unit (q : R) (m n : nat) :
  0 < q < 1 -> (m < n)%nat -> q ^ n < q ^ m.
Proof.
  intros Hq Hmn; induction Hmn as [|k Hk IH].
  - assert (0 < q ^ m) by (apply pow_lt; lra).
    rewrite <- tech_pow_Rmult; nra.
  - assert (0 < q ^ k) by (apply pow_lt; lra).
    rewrite <- tech_pow_Rmult; nra.
Qed.

Lemma d2_integrand_lt (p : R) (m n : nat) :
  0 < p < 1 -> (m < n)%nat -> d2_integrand p m < d2_integrand p n.
Proof.
  intros Hp Hmn; unfold d2_integrand.
  assert ((1 - p) ^ n < (1 - p) ^ m) by (apply pow_lt_unit; [lra | assumption]).
  assert (p ^ n < p ^ m) by (apply pow_lt_unit; assumption).
  lra.
Qed.

Lemma d2_integrand_range (p : R) (n : nat) :
  0 < p < 1 -> -1 <= d2_integrand p n < 1.
Proof.
  intros Hp; unfold d2_integrand.
  assert (0 < p ^ n) by (apply pow_lt; lra).
  assert (0 < (1 - p) ^ n) by (apply pow_lt; lra).
  assert (H1 : p ^ n <= 1 ^ n) by (apply pow_incr; lra).
  assert (H2 : (1 - p) ^ n <= 1 ^ n) by (apply pow_incr; lra).
  rewrite pow1 in H1, H2; lra.
Qed.

Lemma d2_integrand_3 (p : R) : d2_integrand p 3 = 3 / 2 * d2_integrand p 2.
Proof. unfold d2_integrand; field. Qed.

Lemma Rtrapz_lt {A : Type} (f g : A -> R) (xs : list A) (h : R) :
  0 < h -> (2 <= length xs)%nat -> (forall x, In x xs -> f x < g x) ->
  Rtrapz (map f xs) h < Rtrapz (map g xs) h.
Proof.
  intros Hh Hlen H.
  destruct xs as [|a [|b t]]; simpl in Hlen; try lia.
  cbn [map]; rewrite !Rtrapz_cons2.
  assert (f a < g a) by (apply H; now left).
  assert (f b < g b) by (apply H; right; now left).
  assert (Rtrapz (map f (b :: t)) h <= Rtrapz (map g (b :: t)) h).
  { apply Rtrapz_le; [lra|]; intros y Hy; apply Rlt_le, H; now right. }
  assert (h * (f b + f a) < h * (g b + g a))
    by (apply Rmult_lt_compat_l; lra).
  cbn [map] in *; lra.
Qed.

Lemma Rtrapz_scal {A : Type} (c : R) (f : A -> R) (xs : list A) (h : R) :
  Rtrapz (map (fun x => c * f x) xs) h = c * Rtrapz (map f xs) h.
Proof.
  induction xs as [|a xs IH]; [simpl; lra|].
  destruct xs as [|b t]; [simpl; lra|].
  cbn [map] in IH |- *; rewrite !Rtrapz_cons2, IH; lra.
Qed.

Lemma d2_grid_span : INR (length d2_grid - 1) * d2_step = 40.
Proof.
  rewrite length_d2_grid, d2_step_val.
  change (1001 - 1)%nat with 1000%nat.
  rewrite INR_IZR_INZ; change (Z.of_nat 1000) with 1000%Z; lra.
Qed.

Section D2More.

Variable ndtr : R -> R.
Hypothesis ndtr_bounds : forall x, 0 < ndtr x < 1.

Lemma d2_real_lt (m n : nat) :
  (m < n)%nat -> d2_real ndtr m < d2_real ndtr n.
Proof.
  intros Hmn; unfold d2_real; apply Rtrapz_lt.
  - apply d2_step_pos.
  - rewrite length_d2_grid; lia.
  - intros x _; apply d2_integrand_lt; [apply ndtr_bounds | assumption].
Qed.

Lemma d2_real_range (n : nat) : -40 <= d2_real ndtr n < 40.
Proof.
  pose proof d2_grid_span as Hspan.
  pose proof d2_step_pos as Hh.
  split.
  - replace (-40) with (Rtrapz (map (fun _ : R => -1) d2_grid) d2_step)
      by (rewrite Rtrapz_const; lra).
    unfold d2_real; apply Rtrapz_le; [lra|].
    intros x _; apply d2_integrand_range, ndtr_bounds.
  - replace 40 with (Rtrapz (map (fun _ : R => 1) d2_grid) d2_step)
      by (rewrite Rtrapz_const; lra).
    unfold d2_real; apply Rtrapz_lt; [assumption | rewrite length_d2_grid; lia |].
    intros x _; apply d2_integrand_range, ndtr_bounds.
Qed.

(** X1: [calculate_d2] is strictly increasing in the subgroup size: for
    [m < n], zero included, [calculate_d2(m) < calculate_d2(n)].  No two
    sizes share a d2. *)
Theorem calculate_d2_strictly_increasing (m n : nat) :
  (m < n)%nat ->
  exists a b,
    calculate_d2 ndtr m = Fin a /\ calculate_d2 ndtr n = Fin b /\ a < b.
Proof.
  intros Hmn; exists (d2_real ndtr m), (d2_real ndtr n).
  rewrite !calculate_d2_fin; repeat split; now apply d2_real_lt.
Qed.

(** X2: whatever the subgroup size, [calculate_d2(n)] is a number in
    [[-40, 40)]: the integrand lies in [[-1, 1)] and the range of
    integration is 40 wide. *)
Theorem calculate_d2_bounded (n : nat) :
  exists d, calculate_d2 ndtr n = Fin d /\ -40 <= d < 40.
Proof.
  exists (d2_real ndtr n); split;
    [apply calculate_d2_fin | apply d2_real_range].
Qed.

End D2More.

Lemma d2_real_three (ndtr : R -> R) :
  d2_real ndtr 3 = 3 / 2 * d2_real ndtr 2.
Proof.
  unfold d2_real; rewrite <- Rtrapz_scal.
  f_equal; apply map_ext; intros x; apply d2_integrand_3.
Qed.

(** X3: [calculate_d2(3)] is one and a half times [calculate_d2(2)], for
    any distribution function: the integrand [1 - (1-p)^3 - p^3] is
    [3 p (1-p)], and the one of size 2 is [2 p (1-p)]. *)
Theorem calculate_d2_three (ndtr : R -> R) :
  calculate_d2 ndtr 3 = (Fin (3 / 2) * calculate_d2 ndtr 2)%float.
Proof.
  rewrite !calculate_d2_fin, fmul_fin; f_equal; apply d2_real_three.
Qed.

(* ================================================================== *)
(** * Sums, means and extrema of lists of reals *)
(* ================================================================== *)





Lemma length_pos_INR (A : Type) (l : list A) : l <> [] -> 0 < INR (length l).
Proof.
  intros H; destruct l; [contradiction|].
  cbn [length]; rewrite S_INR; pose proof (pos_INR (length l)); lra.
Qed.







(* ------------------------------------------------------------------ *)
(** ** Windows *)
(* ------------------------------------------------------------------ *)


Lemma windows_cons (w : nat) (a : R) (l : list R) :
  (w <= S (length l))%nat ->
  windows w (a :: l) = firstn w (a :: l) :: windows w l.
Proof.
  intros H; cbn [windows].
  destruct (Nat.leb_spec w (length (a :: l)));
    [reflexivity | cbn [length] in *; lia].
Qed.


(** Windows of two rows are the pairs of neighbours. *)
Lemma windows_two (l : list R) :
  map window_range (windows 2 l) = moving_ranges l.
Proof.
  induction l as [|a l IH]; [reflexivity|].
  destruct l as [|b t]; [reflexivity|].
  rewrite windows_cons by (cbn [length]; lia).
  cbn [firstn map moving_ranges]; rewrite IH, window_range_pair.
  now rewrite Rabs_minus_sym.
Qed.



(* ------------------------------------------------------------------ *)
(** ** The sample deviation *)
(* ------------------------------------------------------------------ *)




(* ------------------------------------------------------------------ *)
(** ** Shift and change of unit *)
(* ------------------------------------------------------------------ *)

Lemma Rsum_map_shift (c : R) (l : list R) :
  Rsum (map (fun x => x + c) l) = Rsum l + INR (length l) * c.
Proof.
  induction l as [|a l IH]; [simpl; lra|].
  cbn [map length]; rewrite !Rsum_cons, IH, S_INR; lra.
Qed.

Lemma Rsum_map_scale (k : R) (l : list R) :
  Rsum (map (fun x => k * x) l) = k * Rsum l.
Proof.
  induction l as [|a l IH]; [simpl; lra|].
  cbn [map]; rewrite !Rsum_cons, IH; lra.
Qed.

Lemma arith_mean_shift (c : R) (l : list R) :
  l <> [] -> arith_mean (map (fun x => x + c) l) = arith_mean l + c.
Proof.
  intros Hne; unfold arith_mean; rewrite Rsum_map_shift, length_map.
  pose proof (length_pos_INR _ l Hne); field; lra.
Qed.

Lemma arith_mean_scale (k : R) (l : list R) :
  arith_mean (map (fun x => k * x) l) = k * arith_mean l.
Proof.
  unfold arith_mean; rewrite Rsum_map_scale, length_map.
  unfold Rdiv; ring.
Qed.

Lemma sample_var_shift (c : R) (l : list R) :
  l <> [] -> sample_var (map (fun x => x + c) l) = sample_var l.
Proof.
  intros Hne; unfold sample_var.
  rewrite arith_mean_shift, length_map, map_map by assumption.
  f_equal; f_equal; apply map_ext; intros x; ring.
Qed.

Lemma sample_var_scale (k : R) (l : list R) :
  sample_var (map (fun x => k * x) l) = k ^ 2 * sample_var l.
Proof.
  unfold sample_var; rewrite arith_mean_scale, length_map, map_map.
  rewrite (map_ext _ (fun x => k ^ 2 * (arith_mean l - x) ^ 2))
    by (intros x; ring).
  rewrite <- (map_map (fun x => (arith_mean l - x) ^ 2) (fun y => k ^ 2 * y)).
  rewrite Rsum_map_scale; unfold Rdiv; ring.
Qed.

Lemma sample_std_shift (c : R) (l : list R) :
  l <> [] -> sample_std (map (fun x => x + c) l) = sample_std l.
Proof. intros Hne; unfold sample_std; now rewrite sample_var_shift. Qed.

Lemma sample_std_scale (k : R) (l : list R) :
  0 < k -> sample_std (map (fun x => k * x) l) = k * sample_std l.
Proof.
  intros Hk; unfold sample_std; rewrite sample_var_scale.
  rewrite sqrt_mult_alt by apply pow2_ge_0.
  rewrite <- Rsqr_pow2, sqrt_Rsqr by lra; reflexivity.
Qed.

(** Extrema commute with a non-decreasing map. *)
Lemma MaxRlist_map_mono (f : R -> R) (l : list R) :
  (forall a b, a <= b -> f a <= f b) ->
  l <> [] -> MaxRlist (map f l) = f (MaxRlist l).
Proof.
  intros Hf; induction l as [|a l IH]; intros Hne; [contradiction|].
  destruct l as [|b t]; [reflexivity|].
  change (MaxRlist (map f (a :: b :: t)))
    with (Rmax (f a) (MaxRlist (map f (b :: t)))).
  change (MaxRlist (a :: b :: t)) with (Rmax a (MaxRlist (b :: t))).
  rewrite IH by discriminate.
  unfold Rmax at 2; destruct (Rle_dec a (MaxRlist (b :: t))) as [H | H].
  - apply Rmax_right, Hf, H.
  - apply Rmax_left, Hf; lra.
Qed.

Lemma MinRlist_map_mono (f : R -> R) (l : list R) :
  (forall a b, a <= b -> f a <= f b) ->
  l <> [] -> MinRlist (map f l) = f (MinRlist l).
Proof.
  intros Hf; induction l as [|a l IH]; intros Hne; [contradiction|].
  destruct l as [|b t]; [reflexivity|].
  change (MinRlist (map f (a :: b :: t)))
    with (Rmin (f a) (MinRlist (map f (b :: t)))).
  change (MinRlist (a :: b :: t)) with (Rmin a (MinRlist (b :: t))).
  rewrite IH by discriminate.
  unfold Rmin at 2; destruct (Rle_dec a (MinRlist (b :: t))) as [H | H].
  - apply Rmin_left, Hf, H.
  - apply Rmin_right, Hf; lra.
Qed.

Lemma window_range_shift (c : R) (v : list R) :
  v <> [] -> window_range (map (fun x => x + c) v) = window_range v.
Proof.
  intros Hne; unfold window_range.
  rewrite MaxRlist_map_mono, MinRlist_map_mono by (auto; intros; lra); ring.
Qed.

Lemma window_range_scale (k : R) (v : list R) :
  0 < k -> v <> [] ->
  window_range (map (fun x => k * x) v) = k * window_range v.
Proof.
  intros Hk Hne; unfold window_range.
  rewrite MaxRlist_map_mono, MinRlist_map_mono; auto; try ring;
    intros a b Hab; apply Rmult_le_compat_l; lra.
Qed.

Lemma windows_map (f : R -> R) (w : nat) (l : list R) :
  windows w (map f l) = map (map f) (windows w l).
Proof.
  induction l as [|a l IH]; [reflexivity|].
  cbn [map windows length]; rewrite length_map.
  destruct (w <=? S (length l))%nat; [|reflexivity].
  cbn [map]; rewrite <- IH; f_equal.
  change (f a :: map f l) with (map f (a :: l)); apply firstn_map.
Qed.

Lemma window_ranges_map (f : R -> R) (g : R -> R) (w : nat) (l : list R) :
  (1 <= w)%nat ->
  (forall v, v <> [] -> window_range (map f v) = g (window_range v)) ->
  map window_range (windows w (map f l))
  = map g (map window_range (windows w l)).
Proof.
  intros Hw H; rewrite windows_map, !map_map.
  apply map_ext_in; intros v Hv; apply H.
  now destruct (windows_nonempty w l v Hw Hv).
Qed.

(* ================================================================== *)
(** * Further properties of calculate_process *)
(* ================================================================== *)

(* ------------------------------------------------------------------ *)
(** ** Rows of the rolling range *)
(* ------------------------------------------------------------------ *)

(** A window of zero rows leaves every row [nan]. *)
Lemma rolling_agg_zero (op : float -> float -> float) (s : Series) :
  rolling_agg op (rolling s 0) = repeat NaN (length s).
Proof.
  unfold rolling_agg; cbn [obj win rolling].
  rewrite (map_ext _ (fun _ => NaN)) by reflexivity.
  now rewrite map_const, length_seq.
Qed.

Lemma rolling_range_zero (s : Series) :
  series_sub (rolling_max (rolling s 0)) (rolling_min (rolling s 0))
  = repeat NaN (length s).
Proof.
  unfold series_sub, rolling_max, rolling_min.
  rewrite !rolling_agg_zero.
  now rewrite combine_repeat, map_repeat.
Qed.

Lemma length_rolling_agg (op : float -> float -> float) (s : Series) (w : nat) :
  length (rolling_agg op (rolling s w)) = length s.
Proof.
  unfold rolling_agg; cbn [obj win rolling].
  now rewrite length_map, length_seq.
Qed.

Lemma existsb_nan_last (v : Series) : existsb is_nan (v ++ [NaN]) = true.
Proof. rewrite existsb_app; cbn [existsb is_nan]; now rewrite orb_true_r. Qed.

(** A [nan] appended to the Series adds one [nan] row and leaves the others
    as they are. *)
Lemma rolling_agg_trailing_nan (op : float -> float -> float) (s : Series)
    (w : nat) :
  rolling_agg op (rolling (s ++ [NaN]) w)
  = rolling_agg op (rolling s w) ++ [NaN].
Proof.
  unfold rolling_agg, window_at; cbn [obj win rolling].
  rewrite length_app; cbn [length]; rewrite Nat.add_1_r, seq_S, map_app.
  cbn [map Nat.add]; f_equal.
  - apply map_ext_in; intros i Hi; rewrite in_seq in Hi.
    destruct (Nat.leb_spec w (S i)) as [Hfit | Hshort];
      [|now rewrite !andb_false_r].
    rewrite skipn_app, firstn_app, length_skipn.
    replace (S i - w - length s)%nat with 0%nat by lia.
    replace (w - (length s - (S i - w)))%nat with 0%nat by lia.
    cbn [skipn firstn]; now rewrite app_nil_r.
  - f_equal.
    destruct (Nat.ltb_spec 0 w) as [Hpos | Hzero]; [|reflexivity].
    destruct (Nat.leb_spec w (S (length s))) as [Hfit | Hshort];
      [|reflexivity].
    rewrite skipn_app, firstn_app, length_skipn.
    replace (S (length s) - w - length s)%nat with 0%nat by lia.
    replace (w - (length s - (S (length s) - w)))%nat with 1%nat by lia.
    cbn [skipn firstn].
    rewrite firstn_all2 by (rewrite length_skipn; lia).
    now rewrite existsb_nan_last.
Qed.

Lemma rolling_range_trailing_nan (s : Series) (w : nat) :
  series_sub (rolling_max (rolling (s ++ [NaN]) w))
             (rolling_min (rolling (s ++ [NaN]) w))
  = series_sub (rolling_max (rolling s w)) (rolling_min (rolling s w))
    ++ [NaN].
Proof.
  unfold series_sub, rolling_max, rolling_min.
  rewrite !rolling_agg_trailing_nan.
  rewrite combine_app_eq by now rewrite !length_rolling_agg.
  now rewrite map_app.
Qed.

Lemma dropna_trailing_nan (s : Series) : dropna (s ++ [NaN]) = dropna s.
Proof. rewrite dropna_app; cbn; now rewrite app_nil_r. Qed.

Lemma dropna_idem (s : Series) : dropna (dropna s) = dropna s.
Proof.
  unfold dropna; induction s as [|x s IH]; [reflexivity|].
  cbn [filter]; destruct (negb (is_nan x)) eqn:E; [|assumption].
  cbn [filter]; now rewrite E, IH.
Qed.

(* ------------------------------------------------------------------ *)
(** ** The two indices on finite statistics *)
(* ------------------------------------------------------------------ *)

Lemma fsub_nan_r (x : float) : (x - NaN)%float = NaN.
Proof. now destruct x. Qed.

Lemma fsub_nan_l (y : float) : (NaN - y)%float = NaN.
Proof. reflexivity. Qed.

(** Without a mean both ratios are [nan]. *)
Lemma index_nan_mean (l u s : float) :
  np_min [ ((u - NaN) / (Fin 3 * s))%float;
           ((NaN - l) / (Fin 3 * s))%float ] = NaN.
Proof. rewrite fsub_nan_r, fsub_nan_l, !fdiv_nan_l; reflexivity. Qed.

Lemma inf_signed_scale (k a : R) : 0 < k -> inf_signed (k * a) = inf_signed a.
Proof.
  intros Hk; unfold inf_signed.
  destruct (Rlt_dec 0 a) as [Ha | Ha].
  - rewrite !Rltb_true; auto; apply Rmult_lt_0_compat; assumption.
  - rewrite !(Rltb_false 0) by (try assumption; nra).
    destruct (Rlt_dec a 0) as [Hb | Hb].
    + rewrite !Rltb_true; auto; nra.
    + rewrite !Rltb_false; auto; nra.
Qed.

Lemma fmul_pos_pinf (k : R) : 0 < k -> (Fin k * PInf)%float = PInf.
Proof. intros Hk; cbn [fmul]; unfold inf_signed; now rewrite Rltb_true. Qed.

Lemma fmul_pos_ninf (k : R) : 0 < k -> (Fin k * NInf)%float = NInf.
Proof.
  intros Hk; cbn [fmul]; unfold inf_signed.
  now rewrite Rltb_false, Rltb_true by lra.
Qed.

(** A ratio is unchanged when numerator and deviation are both multiplied
    by [k > 0]. *)
Lemma ratio_scale (k a : R) (s : float) :
  0 < k ->
  (Fin (k * a) / (Fin 3 * (Fin k * s)))%float = (Fin a / (Fin 3 * s))%float.
Proof.
  intros Hk; destruct s as [s | | |].
  - rewrite !fmul_fin; unfold fdiv.
    destruct (Req_dec s 0) as [-> | Hs].
    + rewrite !Rmult_0_r, Reqb0_zero; now apply inf_signed_scale.
    + rewrite !Reqb0_nonzero by (try apply Rmult_integral_contrapositive; nra).
      f_equal; field; lra.
  - rewrite !fmul_pos_pinf by lra; reflexivity.
  - rewrite !fmul_pos_ninf by lra; reflexivity.
  - reflexivity.
Qed.





Section ProcessMore.

Variable ndtr : R -> R.

Lemma min_eq (samples : Series) (LSL USL : float) (w : nat) :
  min (calculate_process ndtr samples LSL USL w) = series_min samples.
Proof. reflexivity. Qed.

Lemma max_eq (samples : Series) (LSL USL : float) (w : nat) :
  max (calculate_process ndtr samples LSL USL w) = series_max samples.
Proof. reflexivity. Qed.

Lemma std_within_eq (samples : Series) (LSL USL : float) (w : nat) :
  std_within (calculate_process ndtr samples LSL USL w)
  = series_mean
      (series_div
         (series_sub (rolling_max (rolling samples w))
                     (rolling_min (rolling samples w)))
         (calculate_d2 ndtr w)).
Proof. reflexivity. Qed.

Lemma std_within_zero (samples : Series) (LSL USL : float) :
  std_within (calculate_process ndtr samples LSL USL 0) = NaN.
Proof.
  rewrite std_within_eq, rolling_range_zero, series_div_nan.
  unfold series_mean; rewrite dropna_repeat_nan; apply fdiv_zero_zero.
Qed.

(** X5: on an empty series [calculate_process] returns a record with
    sample size 0 and every statistic [nan], for any limits and window;
    nothing is raised. *)
Theorem calculate_process_empty (LSL USL : float) (w : nat) :
  calculate_process ndtr [] LSL USL w
  = mkProcess 0 NaN NaN NaN NaN NaN NaN NaN.
Proof.
  unfold calculate_process.
  change (series_sub (rolling_max (rolling [] w)) (rolling_min (rolling [] w)))
    with (@nil float).
  change (series_div [] (calculate_d2 ndtr w)) with (@nil float).
  rewrite series_mean_empty, !index_nan_mean; reflexivity.
Qed.

(** X6: with fewer than two observations that are not [nan], [std] is
    [nan] (the sample deviation divides by [count - 1]) and so is [ppk]. *)
Theorem few_observations_nan (samples : Series) (LSL USL : float) (w : nat) :
  (length (dropna samples) <= 1)%nat ->
  let r := calculate_process ndtr samples LSL USL w in
  std r = NaN /\ ppk r = NaN.
Proof.
  intros H r; subst r.
  rewrite ppk_eq, std_eq, series_std_short by assumption.
  split; [reflexivity | apply index_nan_dev].
Qed.

(** X7: a window of zero rows is not rejected: every row of the rolling
    range is [nan], and [std_within] and [cpk] are [nan], for every
    series. *)
Theorem window_zero_nan (samples : Series) (LSL USL : float) :
  let r := calculate_process ndtr samples LSL USL 0 in
  std_within r = NaN /\ cpk r = NaN.
Proof.
  intros r; subst r.
  rewrite cpk_eq, std_within_zero.
  split; [reflexivity | apply index_nan_dev].
Qed.

(** X8: [nan] observations are not rejected.  [mean], [std], [ppk], [min]
    and [max] are those of the series without them, while the sample size
    still counts them; and a [nan] appended to a series changes nothing in
    the record but the sample size. *)
Theorem nan_observations_skipped (samples : Series) (LSL USL : float)
    (w : nat) :
  let r := calculate_process ndtr samples LSL USL w in
  let r' := calculate_process ndtr (dropna samples) LSL USL w in
  (sample_size r = length samples
   /\ mean r = mean r' /\ std r = std r' /\ ppk r = ppk r'
   /\ min r = min r' /\ max r = max r')
  /\ calculate_process ndtr (samples ++ [NaN]) LSL USL w
     = mkProcess (S (sample_size r)) (mean r) (std r) (std_within r)
                 (ppk r) (cpk r) (min r) (max r).
Proof.
  intros r r'; subst r r'; split.
  - rewrite !ppk_eq, !mean_eq, !std_eq, !min_eq, !max_eq.
    unfold series_mean, series_std, series_min, series_max.
    rewrite !dropna_idem; repeat split; reflexivity.
  - unfold calculate_process.
    cbn [sample_size mean std std_within ppk cpk min max].
    rewrite rolling_range_trailing_nan.
    unfold series_mean, series_std, series_min, series_max, series_div.
    rewrite map_app; cbn [map]; rewrite fdiv_nan_l, !dropna_trailing_nan.
    rewrite length_app, Nat.add_1_r; reflexivity.
Qed.

End ProcessMore.

(* ------------------------------------------------------------------ *)
(** ** Statistics of a series of reals *)
(* ------------------------------------------------------------------ *)






Section ProcessFinite.

Variable ndtr : R -> R.
Hypothesis ndtr_bounds : forall x, 0 < ndtr x < 1.



Lemma std_within_value (xs : list R) (LSL USL : float) (w : nat) :
  (2 <= w <= length xs)%nat ->
  std_within (calculate_process ndtr (map Fin xs) LSL USL w)
  = Fin (arith_mean (map window_range (windows w xs)) / d2_real ndtr w).
Proof.
  intros Hw; apply std_within_fin; [lia|].
  pose proof (d2_real_pos ndtr ndtr_bounds w (proj1 Hw)); lra.
Qed.








(** X13: with [window = 2], [std_within] is the mean of the absolute
    differences of successive samples (the average moving range) divided by
    [d2(2)]. *)
Theorem std_within_moving_range (xs : list R) (LSL USL : float) :
  (2 <= length xs)%nat ->
  exists d,
    calculate_d2 ndtr 2 = Fin d /\ 0 < d
    /\ std_within (calculate_process ndtr (map Fin xs) LSL USL 2)
       = Fin (arith_mean (moving_ranges xs) / d).
Proof.
  intros Hlen; exists (d2_real ndtr 2).
  rewrite calculate_d2_fin, std_within_value, windows_two by lia.
  repeat split; apply d2_real_pos; [assumption | lia].
Qed.





End ProcessFinite.

(* ------------------------------------------------------------------ *)
(** ** Shifting the data, and changing its unit *)
(* ------------------------------------------------------------------ *)

Lemma series_mean_shift (c : R) (xs : list R) :
  series_mean (map Fin (map (fun x => x + c) xs))
  = (series_mean (map Fin xs) + Fin c)%float.
Proof.
  destruct xs as [|a xs]; [cbn [map]; now rewrite series_mean_empty|].
  rewrite !series_mean_fin, arith_mean_shift, fadd_fin by discriminate.
  reflexivity.
Qed.

Lemma series_mean_scale (k : R) (xs : list R) :
  series_mean (map Fin (map (fun x => k * x) xs))
  = (Fin k * series_mean (map Fin xs))%float.
Proof.
  destruct xs as [|a xs]; [cbn [map]; now rewrite series_mean_empty|].
  rewrite !series_mean_fin, arith_mean_scale, fmul_fin by discriminate.
  reflexivity.
Qed.

Lemma series_std_one (xs : list R) :
  (length xs <= 1)%nat -> series_std (map Fin xs) = NaN.
Proof.
  intros H; apply series_std_short; now rewrite dropna_fin, length_map.
Qed.

Lemma series_std_shift (c : R) (xs : list R) :
  series_std (map Fin (map (fun x => x + c) xs)) = series_std (map Fin xs).
Proof.
  destruct (Nat.le_gt_cases (length xs) 1) as [H | H].
  - rewrite !series_std_one by (rewrite ?length_map; assumption).
    reflexivity.
  - assert (xs <> []) by (intros ->; cbn [length] in H; lia).
    rewrite !series_std_fin by (rewrite ?length_map; lia).
    now rewrite sample_std_shift.
Qed.

Lemma series_std_scale (k : R) (xs : list R) :
  0 < k ->
  series_std (map Fin (map (fun x => k * x) xs))
  = (Fin k * series_std (map Fin xs))%float.
Proof.
  intros Hk; destruct (Nat.le_gt_cases (length xs) 1) as [H | H].
  - rewrite !series_std_one by (rewrite ?length_map; assumption).
    reflexivity.
  - rewrite !series_std_fin by (rewrite ?length_map; lia).
    now rewrite sample_std_scale, fmul_fin.
Qed.

Lemma series_extrema_shift (c : R) (xs : list R) :
  series_min (map Fin (map (fun x => x + c) xs))
  = (series_min (map Fin xs) + Fin c)%float
  /\ series_max (map Fin (map (fun x => x + c) xs))
     = (series_max (map Fin xs) + Fin c)%float.
Proof.
  destruct xs as [|a xs]; [split; reflexivity|].
  rewrite !series_min_fin, !series_max_fin, !fadd_fin by discriminate.
  rewrite MinRlist_map_mono, MaxRlist_map_mono
    by (try discriminate; intros; lra).
  split; reflexivity.
Qed.

Lemma series_extrema_scale (k : R) (xs : list R) :
  0 < k ->
  series_min (map Fin (map (fun x => k * x) xs))
  = (Fin k * series_min (map Fin xs))%float
  /\ series_max (map Fin (map (fun x => k * x) xs))
     = (Fin k * series_max (map Fin xs))%float.
Proof.
  intros Hk; destruct xs as [|a xs]; [split; reflexivity|].
  rewrite !series_min_fin, !series_max_fin, !fmul_fin by discriminate.
  rewrite MinRlist_map_mono, MaxRlist_map_mono;
    try discriminate; try (split; reflexivity);
    intros x y Hxy; apply Rmult_le_compat_l; lra.
Qed.

(** The rolling range does not see a shift of the data. *)
Lemma rolling_range_shift (c : R) (xs : list R) (w : nat) :
  series_sub (rolling_max (rolling (map Fin (map (fun x => x + c) xs)) w))
             (rolling_min (rolling (map Fin (map (fun x => x + c) xs)) w))
  = series_sub (rolling_max (rolling (map Fin xs) w))
               (rolling_min (rolling (map Fin xs) w)).
Proof.
  destruct w as [|w].
  - now rewrite !rolling_range_zero, !length_map.
  - destruct (Nat.le_gt_cases (S w) (length xs)) as [H | H].
    + rewrite !rolling_range_fin by (rewrite ?length_map; lia).
      f_equal.
      rewrite <- !(map_map window_range Fin).
      rewrite (window_ranges_map (fun x => x + c) (fun r => r)), map_id;
        [reflexivity | lia |].
      intros v Hv; now apply window_range_shift.
    + now rewrite !rolling_range_short, !length_map
        by (rewrite ?length_map; lia).
Qed.

(** The shifted limits against the shifted mean. *)
Lemma index_shift (c l u : R) (m s : float) :
  np_min [ ((Fin (u + c) - (m + Fin c)) / (Fin 3 * s))%float;
           (((m + Fin c) - Fin (l + c)) / (Fin 3 * s))%float ]
  = np_min [ ((Fin u - m) / (Fin 3 * s))%float;
             ((m - Fin l) / (Fin 3 * s))%float ].
Proof.
  destruct m as [m | | |]; try reflexivity.
  rewrite fadd_fin, !fsub_fin.
  replace (u + c - (m + c)) with (u - m) by ring.
  replace (m + c - (l + c)) with (m - l) by ring.
  reflexivity.
Qed.

Lemma index_scale (k l u : R) (m s : float) :
  0 < k ->
  (m = NaN \/ exists r, m = Fin r) ->
  np_min [ ((Fin (k * u) - Fin k * m) / (Fin 3 * (Fin k * s)))%float;
           ((Fin k * m - Fin (k * l)) / (Fin 3 * (Fin k * s)))%float ]
  = np_min [ ((Fin u - m) / (Fin 3 * s))%float;
             ((m - Fin l) / (Fin 3 * s))%float ].
Proof.
  intros Hk [-> | [r ->]].
  - rewrite fmul_nan_r, !index_nan_mean; reflexivity.
  - rewrite fmul_fin, !fsub_fin.
    replace (k * u - k * r) with (k * (u - r)) by ring.
    replace (k * r - k * l) with (k * (r - l)) by ring.
    now rewrite !ratio_scale.
Qed.

Lemma series_mean_shape (xs : list R) :
  series_mean (map Fin xs) = NaN \/ exists r, series_mean (map Fin xs) = Fin r.
Proof.
  destruct xs as [|a xs]; [left; apply series_mean_empty|].
  right; eexists; apply series_mean_fin; discriminate.
Qed.

Section Invariance.

Variable ndtr : R -> R.

(** X18: adding a constant [c] to every sample and to both limits leaves
    [std], [std_within], [ppk] and [cpk] unchanged and adds [c] to [mean],
    [min] and [max], for every series of numbers and every window. *)
Theorem shift_invariance (xs : list R) (l u c : R) (w : nat) :
  let r := calculate_process ndtr (map Fin xs) (Fin l) (Fin u) w in
  let r' :=
    calculate_process ndtr (map Fin (map (fun x => x + c) xs))
                      (Fin (l + c)) (Fin (u + c)) w in
  (std r' = std r /\ std_within r' = std_within r
   /\ ppk r' = ppk r /\ cpk r' = cpk r)
  /\ mean r' = (mean r + Fin c)%float
  /\ min r' = (min r + Fin c)%float
  /\ max r' = (max r + Fin c)%float.
Proof.
  intros r r'; subst r r'.
  assert (Hsw :
    std_within (calculate_process ndtr (map Fin (map (fun x => x + c) xs))
                                  (Fin (l + c)) (Fin (u + c)) w)
    = std_within (calculate_process ndtr (map Fin xs) (Fin l) (Fin u) w)).
  { now rewrite !std_within_eq, rolling_range_shift. }
  rewrite !ppk_eq, !cpk_eq, Hsw, !mean_eq, !std_eq, !min_eq, !max_eq.
  rewrite series_mean_shift, series_std_shift, !index_shift.
  destruct (series_extrema_shift c xs) as [-> ->].
  repeat split; reflexivity.
Qed.

Hypothesis ndtr_bounds : forall x, 0 < ndtr x < 1.

Lemma std_within_scale (k : R) (xs : list R) (LSL USL LSL' USL' : float)
    (w : nat) :
  0 < k ->
  std_within (calculate_process ndtr (map Fin (map (fun x => k * x) xs))
                                LSL' USL' w)
  = (Fin k * std_within (calculate_process ndtr (map Fin xs) LSL USL w))%float.
Proof.
  intros Hk.
  destruct w as [|[|w]].
  - now rewrite !std_within_zero.
  - now rewrite !std_within_window_one.
  - destruct (Nat.le_gt_cases (S (S w)) (length xs)) as [H | H].
    + rewrite !(std_within_value ndtr ndtr_bounds), fmul_fin
        by (rewrite ?length_map; lia).
      rewrite (window_ranges_map (fun x => k * x) (fun r => k * r)),
        arith_mean_scale; [f_equal; unfold Rdiv; ring | lia |].
      intros v Hv; now apply window_range_scale.
    + now rewrite !std_within_short by (rewrite ?length_map; lia).
Qed.

(** X19: multiplying every sample and both limits by [k > 0] (a change of
    unit) leaves [ppk] and [cpk] unchanged and multiplies [mean], [std],
    [std_within], [min] and [max] by [k]. *)
Theorem scale_invariance (xs : list R) (l u k : R) (w : nat) :
  0 < k ->
  let r := calculate_process ndtr (map Fin xs) (Fin l) (Fin u) w in
  let r' :=
    calculate_process ndtr (map Fin (map (fun x => k * x) xs))
                      (Fin (k * l)) (Fin (k * u)) w in
  (ppk r' = ppk r /\ cpk r' = cpk r)
  /\ mean r' = (Fin k * mean r)%float
  /\ std r' = (Fin k * std r)%float
  /\ std_within r' = (Fin k * std_within r)%float
  /\ min r' = (Fin k * min r)%float
  /\ max r' = (Fin k * max r)%float.
Proof.
  intros Hk r r'; subst r r'.
  rewrite !ppk_eq, !cpk_eq.
  rewrite (std_within_scale k xs (Fin l) (Fin u)) by assumption.
  rewrite !mean_eq, !std_eq, !min_eq, !max_eq.
  rewrite series_mean_scale, series_std_scale by assumption.
  destruct (series_extrema_scale k xs Hk) as [-> ->].
  rewrite !index_scale by (try assumption; apply series_mean_shape).
  repeat split; reflexivity.
Qed.

End Invariance.

(* ================================================================== *)
(** * Further properties of calculate_p_value *)
(* ================================================================== *)

Lemma fold_fadd_nan (l : list float) : fold_left fadd l NaN = NaN.
Proof. induction l as [|x l IH]; [reflexivity | exact IH]. Qed.

Lemma np_sum_all_nan (k : nat) : np_sum (repeat NaN (S k)) = NaN.
Proof. unfold np_sum; cbn [repeat fold_left fadd]; apply fold_fadd_nan. Qed.


Lemma arith_mean_app (l1 l2 : list R) :
  l1 <> [] -> l2 <> [] ->
  arith_mean (l1 ++ l2)
  = (INR (length l1) * arith_mean l1 + INR (length l2) * arith_mean l2)
    / INR (length l1 + length l2).
Proof.
  intros H1 H2; unfold arith_mean.
  pose proof (length_pos_INR _ l1 H1); pose proof (length_pos_INR _ l2 H2).
  rewrite Rsum_app, length_app, plus_INR; field; lra.
Qed.


Lemma two_sided_tail_at_mean (ndtr : R -> R) (m s : R) :
  ndtr 0 = 1 / 2 -> two_sided_tail ndtr m s m = 1.
Proof.
  intros H0; unfold two_sided_tail.
  replace ((m - m) / s) with 0 by (unfold Rdiv; ring).
  rewrite H0, Rmin_left; lra.
Qed.

Lemma two_sided_tail_mirror (ndtr : R -> R) (m s x : R) :
  (forall z, ndtr (- z) = 1 - ndtr z) ->
  two_sided_tail ndtr m s (2 * m - x) = two_sided_tail ndtr m s x.
Proof.
  intros Hsym; unfold two_sided_tail.
  replace ((2 * m - x - m) / s) with (- ((x - m) / s)) by (unfold Rdiv; ring).
  rewrite Hsym, Rmin_comm; do 2 f_equal; ring.
Qed.

Lemma np_mean_empty : np_mean [] = NaN.
Proof. unfold np_mean; apply fdiv_zero_zero. Qed.

Lemma np_mean_all_nan (A : Type) (l : list A) :
  l <> [] -> np_mean (map (fun _ => NaN) l) = NaN.
Proof.
  intros H; destruct l as [|x t]; [contradiction|].
  unfold np_mean; rewrite map_const; cbn [length].
  rewrite np_sum_all_nan; apply fdiv_nan_l.
Qed.


Section PValueMore.

Variable ndtr : R -> R.

(** The p-value of a series of reals under a normal law with [s > 0]. *)
Lemma p_value_fin (m s : R) (xs : list R) :
  xs <> [] -> 0 < s ->
  calculate_p_value ndtr (Fin m) (Fin s) (map Fin xs)
  = Fin (arith_mean (map (two_sided_tail ndtr m s) xs)).
Proof.
  intros Hne Hs; unfold calculate_p_value, np_mean, of_nat.
  rewrite map_map.
  rewrite (map_ext _ (fun x => Fin (two_sided_tail ndtr m s x))).
  - rewrite <- (map_map (two_sided_tail ndtr m s) Fin).
    unfold arith_mean; rewrite np_sum_fin, !length_map.
    apply fdiv_fin; destruct xs; [contradiction | apply INR_S_neq_0].
  - intros x; rewrite cdf_fin, fsub_fin, py_min_fin2, fmul_fin by assumption.
    reflexivity.
Qed.

(** Without a positive deviation every term of the mean is [nan]. *)
Lemma p_value_terms_nan (mean std : float) (samples : list float) :
  flt (Fin 0) std = false ->
  calculate_p_value ndtr mean std samples
  = np_mean (map (fun _ => NaN) samples).
Proof.
  intros Hstd; unfold calculate_p_value; f_equal.
  apply map_ext; intros x; unfold cdf; cbn [scale]; now rewrite Hstd.
Qed.

(** X20: [calculate_p_value] of an empty list of samples is [nan]
    ([np.mean] of nothing), for any mean and deviation. *)
Theorem p_value_empty (mean std : float) :
  calculate_p_value ndtr mean std [] = NaN.
Proof. unfold calculate_p_value; cbn [map]; apply np_mean_empty. Qed.

(** X21: when the deviation is not a positive number (zero, negative or
    [nan]), [calculate_p_value] of a non-empty list is [nan]: scipy's [cdf]
    is [nan] unless [scale > 0]. *)
Theorem p_value_bad_deviation (mean std : float) (samples : list float) :
  flt (Fin 0) std = false ->
  samples <> [] ->
  calculate_p_value ndtr mean std samples = NaN.
Proof.
  intros Hstd Hne; rewrite p_value_terms_nan by assumption.
  now apply np_mean_all_nan.
Qed.

(** X24: mirroring every sample at the mean ([x] to [2 mean - x]) leaves
    the p-value unchanged, for a symmetric distribution function. *)
Theorem p_value_mirror (m s : R) (xs : list R) :
  (forall z, ndtr (- z) = 1 - ndtr z) ->
  0 < s ->
  calculate_p_value ndtr (Fin m) (Fin s)
                    (map Fin (map (fun x => 2 * m - x) xs))
  = calculate_p_value ndtr (Fin m) (Fin s) (map Fin xs).
Proof.
  intros Hsym Hs; destruct xs as [|a xs]; [reflexivity|].
  rewrite !p_value_fin, map_map by (assumption || discriminate).
  do 2 f_equal; apply map_ext; intros x; now apply two_sided_tail_mirror.
Qed.

(** X23: samples that all sit at the mean have p-value exactly 1, for a
    distribution function with value one half at zero. *)
Theorem p_value_at_mean (m s : R) (xs : list R) :
  ndtr 0 = 1 / 2 ->
  0 < s ->
  xs <> [] ->
  (forall x, In x xs -> x = m) ->
  calculate_p_value ndtr (Fin m) (Fin s) (map Fin xs) = Fin 1.
Proof.
  intros H0 Hs Hne Hall; rewrite p_value_fin by assumption.
  f_equal; apply arith_mean_const.
  - intros E; apply Hne; now apply map_eq_nil in E.
  - intros y Hy; rewrite in_map_iff in Hy; destruct Hy as (x & <- & Hx).
    rewrite (Hall x Hx); now apply two_sided_tail_at_mean.
Qed.

(** X25: the p-value does not depend on the order of the samples. *)
Theorem p_value_permutation (m s : R) (xs ys : list R) :
  0 < s ->
  Permutation xs ys ->
  calculate_p_value ndtr (Fin m) (Fin s) (map Fin xs)
  = calculate_p_value ndtr (Fin m) (Fin s) (map Fin ys).
Proof.
  intros Hs Hp; destruct xs as [|a xs].
  - apply Permutation_nil in Hp; now subst ys.
  - assert (ys <> []) by (apply (Permutation_nonempty Hp); discriminate).
    rewrite !p_value_fin by (assumption || discriminate).
    f_equal; apply arith_mean_permutation; now apply Permutation_map.
Qed.

(** X26: the p-value of two lists put together is the mean of their
    p-values weighted by their lengths. *)
Theorem p_value_pooled (m s : R) (xs ys : list R) :
  0 < s -> xs <> [] -> ys <> [] ->
  exists a b,
    calculate_p_value ndtr (Fin m) (Fin s) (map Fin xs) = Fin a
    /\ calculate_p_value ndtr (Fin m) (Fin s) (map Fin ys) = Fin b
    /\ calculate_p_value ndtr (Fin m) (Fin s) (map Fin (xs ++ ys))
       = Fin ((INR (length xs) * a + INR (length ys) * b)
              / INR (length xs + length ys)).
Proof.
  intros Hs Hx Hy; do 2 eexists.
  rewrite !p_value_fin; try assumption.
  - split; [reflexivity|]; split; [reflexivity|].
    rewrite map_app, arith_mean_app, !length_map; [reflexivity | |];
      intros E; apply map_eq_nil in E; contradiction.
  - intros E; apply app_eq_nil in E; destruct E; contradiction.
Qed.

Hypothesis ndtr_bounds : forall x, 0 < ndtr x < 1.



End PValueMore.

(* ================================================================== *)
(** * The table of d2 *)
(* ================================================================== *)

Lemma PI_bounds_fine :
  3141592653 / 1000000000 <= PI <= 3141592654 / 1000000000.
Proof.
  pose proof (PI_2_3_7_ineq 5) as [H1 H2].
  unfold sum_f_R0, tg_alt, PI_2_3_7_tg, Ratan_seq in H1, H2.
  simpl in H1, H2.
  split; lra.
Qed.

Lemma sym_pows_spec (n : nat) (u : R) :
  fst (sym_pows n (u * u)) = 2 ^ n * ((1 / 2 + u) ^ n + (1 / 2 - u) ^ n)
  /\ u * snd (sym_pows n (u * u))
     = 2 ^ n * ((1 / 2 + u) ^ n - (1 / 2 - u) ^ n).
Proof.
  induction n as [|n [IHa IHe]]; [cbn; split; ring|].
  cbn [sym_pows]; destruct (sym_pows n (u * u)) as [a e].
  cbn [fst snd] in *; rewrite <- !tech_pow_Rmult; split.
  - replace (a + 2 * (u * u) * e) with (a + 2 * u * (u * e)) by ring.
    rewrite IHa, IHe; field.
  - replace (u * (e + 2 * a)) with (u * e + 2 * u * a) by ring.
    rewrite IHa, IHe; field.
Qed.

Lemma d2_integrand_sym (p : R) (n : nat) :
  d2_integrand p n
  = 1 - fst (sym_pows n ((p - 1 / 2) * (p - 1 / 2))) / 2 ^ n.
Proof.
  destruct (sym_pows_spec n (p - 1 / 2)) as [-> _].
  unfold d2_integrand.
  replace (1 / 2 + (p - 1 / 2)) with p by field.
  replace (1 / 2 - (p - 1 / 2)) with (1 - p) by field.
  assert (2 ^ n <> 0) by (apply pow_nonzero; lra).
  field; assumption.
Qed.

Lemma fx_scale_Zpos : (0 < fx_scale)%Z.
Proof. apply lt_IZR, fx_scale_pos. Qed.

Lemma fx_nonneg (a : Z) : (0 <= a)%Z -> 0 <= fx a.
Proof.
  intros H; unfold fx; pose proof fx_scale_pos.
  apply Rmult_le_pos; [now apply IZR_le | left; now apply Rinv_0_lt_compat].
Qed.

Lemma shiftr_fx_scale (a : Z) : Z.shiftr a 64 = (a / fx_scale)%Z.
Proof. unfold fx_scale; apply Z.shiftr_div_pow2; lia. Qed.

(** Rounded products of two fixed-point numbers. *)
Lemma fx_prod_floor (a b : Z) :
  fx (Z.shiftr (2 * a * b) 64) <= 2 * fx a * fx b.
Proof.
  pose proof fx_scale_pos as HS.
  rewrite shiftr_fx_scale.
  pose proof (IZR_div_floor (2 * a * b) fx_scale fx_scale_Zpos) as H.
  rewrite !mult_IZR in H; unfold fx.
  apply Rmult_le_compat_r with (r := / IZR fx_scale) in H;
    [|left; now apply Rinv_0_lt_compat].
  eapply Rle_trans; [exact H|]; apply Req_le; field; lra.
Qed.

Lemma fx_prod_ceil (a b : Z) :
  2 * fx a * fx b <= fx (- Z.shiftr (- (2 * a * b)) 64).
Proof.
  pose proof fx_scale_pos as HS.
  rewrite shiftr_fx_scale.
  pose proof (IZR_div_ceil (2 * a * b) fx_scale fx_scale_Zpos) as H.
  unfold cdiv in H; rewrite !mult_IZR in H; unfold fx.
  apply Rmult_le_compat_r with (r := / IZR fx_scale) in H;
    [|left; now apply Rinv_0_lt_compat].
  eapply Rle_trans; [|exact H]; apply Req_le; field; lra.
Qed.

Lemma unit_range_sound (lo hi : Z) (s : R) :
  (0 <= lo)%Z ->
  fx2 lo <= s <= fx2 hi ->
  (0 <= fst (unit_range (lo, hi)))%Z
  /\ fx (fst (unit_range (lo, hi)))
     <= s / (2 * PI)
     <= fx (snd (unit_range (lo, hi))).
Proof.
  intros Hlo [H1 H2]; unfold unit_range; cbn [fst snd].
  pose proof PI_bounds_fine as [Hp1 Hp2].
  pose proof fx_scale_pos as HS.
  pose proof fx_scale_Zpos as HZ.
  assert (Hl0 : 0 <= fx2 lo).
  { unfold fx2; apply Rmult_le_pos; [now apply IZR_le|].
    left; apply Rinv_0_lt_compat; now apply Rmult_lt_0_compat. }
  assert (Hinv : 0 < / (2 * PI)) by (apply Rinv_0_lt_compat; lra).
  assert (Hi1 : 500000000 / 3141592654 <= / (2 * PI)).
  { apply Rmult_le_reg_r with (2 * PI); [lra|].
    rewrite Rinv_l by lra; lra. }
  assert (Hi2 : / (2 * PI) <= 500000000 / 3141592653).
  { apply Rmult_le_reg_r with (2 * PI); [lra|].
    rewrite Rinv_l by lra; lra. }
  split; [apply Z.div_pos; lia|]; split.
  - pose proof (IZR_div_floor (lo * 500000000) (3141592654 * fx_scale)
                  ltac:(lia)) as H.
    rewrite !mult_IZR in H; unfold fx, fx2 in *.
    apply Rle_trans
      with (IZR lo / (IZR fx_scale * IZR fx_scale) * (500000000 / 3141592654)).
    + apply Rmult_le_compat_r with (r := / IZR fx_scale) in H;
        [|left; now apply Rinv_0_lt_compat].
      eapply Rle_trans; [exact H|]; apply Req_le; field; lra.
    + unfold Rdiv at 3; apply Rmult_le_compat; lra.
  - pose proof (IZR_div_ceil (hi * 500000000) (3141592653 * fx_scale)
                  ltac:(lia)) as H.
    rewrite !mult_IZR in H; unfold fx, fx2 in *.
    apply Rle_trans
      with (IZR hi / (IZR fx_scale * IZR fx_scale) * (500000000 / 3141592653)).
    + unfold Rdiv at 1; apply Rmult_le_compat; lra.
    + apply Rmult_le_compat_r with (r := / IZR fx_scale) in H;
        [|left; now apply Rinv_0_lt_compat].
      eapply Rle_trans; [|exact H]; apply Req_le; field; lra.
Qed.

(** The integer recurrence encloses the real one. *)
Lemma siter_sound (n : nat) (tlo thi : Z) (t : R) :
  (0 <= tlo)%Z ->
  fx tlo <= t <= fx thi ->
  let s := siter n (tlo, thi) in
  (0 <= alo s)%Z /\ (0 <= elo s)%Z
  /\ fx (alo s) <= fst (sym_pows n t) <= fx (ahi s)
  /\ fx (elo s) <= snd (sym_pows n t) <= fx (ehi s).
Proof.
  intros Hlo [Ht1 Ht2]; cbv zeta.
  pose proof (fx_nonneg tlo Hlo) as Ht0.
  pose proof fx_scale_Zpos as HZ.
  pose proof fx_scale_pos as HS.
  induction n as [|n (Ha0 & He0 & [Ha1 Ha2] & [He1 He2])].
  - cbn [siter sinit sym_pows alo ahi elo ehi fst snd].
    rewrite fx_mult_const; unfold fx.
    replace (IZR 0 / IZR fx_scale) with 0 by (unfold Rdiv; ring).
    replace (IZR fx_scale / IZR fx_scale) with 1 by (field; lra).
    repeat split; try lia; lra.
  - cbn [siter sym_pows]; destruct (sym_pows n t) as [a e].
    cbn [fst snd] in *.
    set (s := siter n (tlo, thi)) in *.
    unfold sstep; cbn [alo ahi elo ehi fst snd].
    pose proof (fx_nonneg _ Ha0) as Ha0'.
    pose proof (fx_nonneg _ He0) as He0'.
    pose proof (fx_prod_floor tlo (elo s)) as Hf.
    pose proof (fx_prod_ceil thi (ehi s)) as Hc.
    assert (0 <= Z.shiftr (2 * tlo * elo s) 64)%Z
      by (apply Z.shiftr_nonneg; apply Z.mul_nonneg_nonneg; lia).
    replace (ahi s - Z.shiftr (- (2 * thi * ehi s)) 64)%Z
      with (ahi s + - Z.shiftr (- (2 * thi * ehi s)) 64)%Z by ring.
    rewrite !fx_plus, !fx_mult_const.
    assert (fx tlo * fx (elo s) <= t * e) by (apply Rmult_le_compat; lra).
    assert (t * e <= fx thi * fx (ehi s)) by (apply Rmult_le_compat; lra).
    repeat split; try lia; lra.
Qed.

Lemma strace_nth (n k m : nat) (t : Z * Z) :
  (k <= n)%nat ->
  nth k (strace n t (siter m t)) (0, 0)%Z
  = (alo (siter (m + k) t), ahi (siter (m + k) t)).
Proof.
  revert k m; induction n as [|n IH]; intros k m Hk.
  - replace k with 0%nat by lia; now rewrite Nat.add_0_r.
  - destruct k as [|k]; [now rewrite Nat.add_0_r|].
    cbn [strace nth].
    change (sstep t (siter m t)) with (siter (S m) t).
    rewrite IH by lia; now rewrite Nat.add_succ_r.
Qed.

Lemma grid_traces_nth (j : nat) :
  (j <= 500)%nat ->
  nth j grid_traces []
  = strace table_size (unit_range (grid_range tail_range (Z.of_nat j))) sinit.
Proof.
  intros Hj; unfold grid_traces; cbv zeta.
  set (f := fun j : nat =>
              if (Z.of_nat j <=? central)%Z
              then strace table_size
                          (unit_range (sq_range (dev_bounds (Z.of_nat j))))
                          sinit
              else strace table_size (unit_range tail_range) sinit).
  rewrite (nth_indep _ [] (f 0%nat)) by (rewrite length_map, length_seq; lia).
  rewrite (map_nth f), seq_nth by lia.
  unfold f, grid_range; cbn [Nat.add].
  now destruct (Z.of_nat j <=? central)%Z.
Qed.

Lemma sq_range_nonneg (b : Z * Z) : (0 <= fst (sq_range b))%Z.
Proof. unfold sq_range; cbn [fst]; apply Z.pow_nonneg, Z.le_max_r. Qed.

Lemma grid_range_nonneg (j : Z) : (0 <= fst (grid_range tail_range j))%Z.
Proof.
  unfold grid_range; destruct (j <=? central)%Z;
    [|unfold tail_range]; apply sq_range_nonneg.
Qed.

Lemma sym_grid_nth (n i : nat) :
  (n <= table_size)%nat -> (i <= 1000)%nat ->
  nth i (sym_grid grid_traces n) (0, 0)%Z
  = (let s :=
       siter n (unit_range
                  (grid_range tail_range (Z.abs (Z.of_nat i - 500)))) in
     (alo s, ahi s)).
Proof.
  intros Hn Hi; unfold sym_grid; cbv zeta.
  set (f := fun i : nat =>
              nth n (nth (Z.to_nat (Z.abs (Z.of_nat i - 500))) grid_traces [])
                  (0, 0)%Z).
  rewrite (nth_indep _ (0, 0)%Z (f 0%nat))
    by (rewrite length_map, length_seq; lia).
  rewrite (map_nth f), seq_nth by lia.
  unfold f; cbn [Nat.add].
  rewrite grid_traces_nth by lia.
  rewrite Z2Nat.id by lia.
  change sinit with (siter 0 (unit_range (grid_range tail_range
                                  (Z.abs (Z.of_nat i - 500))))).
  now rewrite strace_nth.
Qed.

Lemma length_sym_grid (tr : list (list (Z * Z))) (n : nat) :
  length (sym_grid tr n) = 1001%nat.
Proof. unfold sym_grid; now rewrite length_map, length_seq. Qed.

Lemma list_as_nth (l : list (Z * Z)) :
  l = map (fun i => nth i l (0, 0)%Z) (seq 0 (length l)).
Proof.
  apply nth_ext with (d := (0, 0)%Z) (d' := (0, 0)%Z).
  - now rewrite length_map, length_seq.
  - intros k Hk.
    rewrite (nth_indep (map _ _) _ (nth 0 l (0, 0)%Z))
      by (rewrite length_map, length_seq; assumption).
    now rewrite (map_nth (fun i => nth i l (0, 0)%Z)), seq_nth.
Qed.

Lemma sym_trapz (n : nat) (proj : Z * Z -> Z) :
  Rtrapz (map (fun i => 1 - IZR (proj (nth i (sym_grid grid_traces n)
                                          (0, 0)%Z))
                            * / (2 ^ n * IZR fx_scale))
              (seq 0 1001)) (1 / 25)
  = 40 - IZR (Ztrapz (map proj (sym_grid grid_traces n)))
         / (50 * 2 ^ n * IZR fx_scale).
Proof.
  assert (E : map proj (sym_grid grid_traces n)
              = map (fun i => proj (nth i (sym_grid grid_traces n) (0, 0)%Z))
                    (seq 0 1001)).
  { pose proof (length_sym_grid grid_traces n) as Hlen; revert Hlen.
    generalize (sym_grid grid_traces n); intros l Hlen.
    rewrite (list_as_nth l) at 1; now rewrite map_map, Hlen. }
  rewrite E.
  rewrite <- (map_map (fun i => proj (nth i (sym_grid grid_traces n) (0, 0)%Z))
                      (fun z => 1 - IZR z * / (2 ^ n * IZR fx_scale))).
  rewrite Rtrapz_affine, length_map, length_seq.
  change (1001 - 1)%nat with 1000%nat; rewrite INR_IZR_INZ.
  change (Z.of_nat 1000) with 1000%Z.
  generalize (Ztrapz (map (fun i => proj (nth i (sym_grid grid_traces n)
                                              (0, 0)%Z))
                          (seq 0 1001))); intros z.
  pose proof fx_scale_pos as HS.
  assert (Hn : 0 < 2 ^ n) by (apply pow_lt; lra).
  field; split; lra.
Qed.

Lemma d2_table_ok_eq :
  d2_table_ok = forallb (table_check grid_traces) d2_table.
Proof. reflexivity. Qed.

Lemma d2_table_check : d2_table_ok = true.
Proof. vm_compute; reflexivity. Qed.

Section D2Table.

Variable ndtr : R -> R.
Hypothesis ndtr_deriv :
  forall x, -20 <= x <= 20 -> derivable_pt_lim ndtr x (std_pdf x).
Hypothesis ndtr_zero : ndtr 0 = 1 / 2.

Lemma dev_sqr (x : R) :
  dev ndtr x * dev ndtr x / (2 * PI) = (ndtr x - 1 / 2) * (ndtr x - 1 / 2).
Proof.
  unfold dev; pose proof PI_RGT_0 as Hpi.
  assert (Hc : sqrt (2 * PI) * sqrt (2 * PI) = 2 * PI)
    by (apply sqrt_sqrt; lra).
  set (u := ndtr x - 1 / 2); set (r := sqrt (2 * PI)) in *.
  replace (r * u * (r * u)) with (r * r * (u * u)) by ring.
  rewrite Hc; field; lra.
Qed.

(** Bounds on the integrand at the i-th grid point. *)
Lemma sym_grid_sound (n i : nat) :
  (n <= table_size)%nat -> (i <= 1000)%nat ->
  let b := / (2 ^ n * IZR fx_scale) in
  1 - IZR (snd (nth i (sym_grid grid_traces n) (0, 0)%Z)) * b
  <= d2_integrand (ndtr (grid_point i)) n
  <= 1 - IZR (fst (nth i (sym_grid grid_traces n) (0, 0)%Z)) * b.
Proof.
  intros Hn Hi b; rewrite sym_grid_nth by assumption; cbv zeta; cbn [fst snd].
  pose proof (grid_sq_bounds ndtr ndtr_deriv ndtr_zero i Hi) as Hsq.
  cbv zeta in Hsq.
  pose proof (grid_range_nonneg (Z.abs (Z.of_nat i - 500))) as H0.
  revert Hsq H0.
  generalize (grid_range tail_range (Z.abs (Z.of_nat i - 500))).
  intros [lo hi] Hsq H0; cbn [fst snd] in Hsq, H0.
  destruct (unit_range_sound lo hi _ H0 Hsq) as [Hu0 Hu].
  rewrite dev_sqr in Hu.
  revert Hu0 Hu; generalize (unit_range (lo, hi)); intros [tlo thi] Hu0 Hu.
  cbn [fst snd] in Hu0, Hu.
  pose proof (siter_sound n tlo thi _ Hu0 Hu) as (_ & _ & [Ha1 Ha2] & _).
  rewrite d2_integrand_sym.
  revert Ha1 Ha2.
  generalize (fst (sym_pows n ((ndtr (grid_point i) - 1 / 2)
                               * (ndtr (grid_point i) - 1 / 2)))).
  generalize (siter n (tlo, thi)); intros s a Ha1 Ha2.
  unfold fx in Ha1, Ha2.
  pose proof fx_scale_pos as HS.
  assert (Hp : 0 < 2 ^ n) by (apply pow_lt; lra).
  assert (Hb : 0 < / 2 ^ n) by now apply Rinv_0_lt_compat.
  unfold b; rewrite Rinv_mult.
  split.
  - apply Rplus_le_compat_l, Ropp_le_contravar.
    unfold Rdiv in *.
    replace (IZR (ahi s) * (/ 2 ^ n * / IZR fx_scale))
      with (IZR (ahi s) * / IZR fx_scale * / 2 ^ n) by ring.
    apply Rmult_le_compat_r; lra.
  - apply Rplus_le_compat_l, Ropp_le_contravar.
    unfold Rdiv in *.
    replace (IZR (alo s) * (/ 2 ^ n * / IZR fx_scale))
      with (IZR (alo s) * / IZR fx_scale * / 2 ^ n) by ring.
    apply Rmult_le_compat_r; lra.
Qed.

(** [d2_real n] lies between the two sums computed in fixed point. *)
Lemma d2_real_enclosure (n : nat) :
  (n <= table_size)%nat ->
  40 - IZR (snd (sym_sums grid_traces n)) / (50 * 2 ^ n * IZR fx_scale)
  <= d2_real ndtr n
  <= 40 - IZR (fst (sym_sums grid_traces n)) / (50 * 2 ^ n * IZR fx_scale).
Proof.
  intros Hn; unfold sym_sums; cbv zeta; cbn [fst snd].
  rewrite <- !sym_trapz.
  unfold d2_real; rewrite d2_grid_seq, map_map, d2_step_val.
  split; apply Rtrapz_le; try lra; intros i Hi; rewrite in_seq in Hi;
    apply (sym_grid_sound n i); lia.
Qed.

Lemma d2_real_table (n : nat) (v : Z) :
  In (n, v) d2_table -> Rabs (d2_real ndtr n - IZR v / 1000) <= 1 / 1000.
Proof.
  intros Hin.
  assert (Hn : (n <= table_size)%nat).
  { unfold d2_table, table_size in *; cbn [In] in Hin.
    repeat (destruct Hin as [Hin | Hin];
            [injection Hin as <- <-; lia|]); contradiction. }
  pose proof d2_table_check as Hc.
  rewrite d2_table_ok_eq, forallb_forall in Hc.
  specialize (Hc _ Hin); unfold table_check in Hc; cbn [fst snd] in Hc.
  apply andb_true_iff in Hc; destruct Hc as [H1 H2].
  apply Z.leb_le, IZR_le in H1, H2.
  rewrite !mult_IZR, !minus_IZR, <- !pow_IZR in H1, H2.
  pose proof (d2_real_enclosure n Hn) as [Hlo Hhi].
  revert H1 H2 Hlo Hhi.
  generalize (IZR (fst (sym_sums grid_traces n)))
             (IZR (snd (sym_sums grid_traces n))) (d2_real ndtr n).
  intros slo shi d H1 H2 Hlo Hhi.
  pose proof fx_scale_pos as HS.
  assert (Hp : 0 < 2 ^ n) by (apply pow_lt; lra).
  set (q := 2 ^ n * IZR fx_scale).
  assert (Hq : 0 < q) by (unfold q; now apply Rmult_lt_0_compat).
  replace ((39999 - IZR v) * 2 ^ n * IZR fx_scale)
    with ((39999 - IZR v) * q) in H1 by (unfold q; ring).
  replace ((40001 - IZR v) * 2 ^ n * IZR fx_scale)
    with ((40001 - IZR v) * q) in H2 by (unfold q; ring).
  replace (50 * 2 ^ n * IZR fx_scale) with (50 * q) in Hlo, Hhi
    by (unfold q; ring).
  clearbody q.
  assert (H1' : 39999 - IZR v <= 20 * (slo * / q)).
  { apply Rmult_le_reg_r with q; [assumption|].
    replace (20 * (slo * / q) * q) with (20 * slo) by (field; lra); lra. }
  assert (H2' : 20 * (shi * / q) <= 40001 - IZR v).
  { apply Rmult_le_reg_r with q; [assumption|].
    replace (20 * (shi * / q) * q) with (20 * shi) by (field; lra); lra. }
  replace (slo / (50 * q)) with (slo * / q / 50) in Hhi by (field; lra).
  replace (shi / (50 * q)) with (shi * / q / 50) in Hlo by (field; lra).
  apply Rabs_le; lra.
Qed.

(** X4: for the subgroup sizes 2 to 10, [calculate_d2] is within [1e-3] of
    the constant d2 of the control-chart tables (1.128, 1.693, 2.059, 2.326,
    2.534, 2.704, 2.847, 2.970, 3.078), when [ndtr] is the standard normal
    distribution function. *)
Theorem calculate_d2_table (n : nat) (v : Z) :
  In (n, v) d2_table ->
  exists d,
    calculate_d2 ndtr n = Fin d /\ Rabs (d - IZR v / 1000) <= 1 / 1000.
Proof.
  intros Hin; exists (d2_real ndtr n); split;
    [apply calculate_d2_fin | now apply d2_real_table].
Qed.

End D2Table.

(* ================================================================== *)
(** * Examples *)
(* ================================================================== *)

Lemma logistic_bounds : forall x, 0 < logistic x < 1.
Proof.
  intros x; unfold logistic; pose proof (exp_pos (- x)) as He.
  split.
  - apply Rinv_0_lt_compat; lra.
  - rewrite <- Rinv_1 at 2; apply Rinv_lt_contravar; lra.
Qed.

Lemma arith_mean_123 : arith_mean [1; 2; 3] = 2.
Proof. unfold arith_mean; simpl; lra. Qed.

Lemma sample_std_123 : sample_std [1; 2; 3] = 1.
Proof.
  unfold sample_std, sample_var; rewrite arith_mean_123.
  replace (Rsum _ / _) with 1 by (simpl; lra).
  apply sqrt_1.
Qed.


Ltac eval_range :=
  unfold window_range; cbn [MaxRlist MinRlist]; unfold Rmax, Rmin;
  repeat destruct (Rle_dec _ _); lra.

(** The rolling-range example of the specification: for the samples 1 to 8
    and a window of 4 the windows are [1-4], [2-5], ..., [5-8], each range is
    3, and [std_within = 3 / d2(4)]. *)
Example std_within_one_to_eight :
  windows 4 [1; 2; 3; 4; 5; 6; 7; 8]
  = [[1; 2; 3; 4]; [2; 3; 4; 5]; [3; 4; 5; 6]; [4; 5; 6; 7]; [5; 6; 7; 8]]
  /\ std_within
       (calculate_process logistic (map Fin [1; 2; 3; 4; 5; 6; 7; 8])
          (Fin 0) (Fin 9) 4)
     = Fin (3 / d2_real logistic 4).
Proof.
  split; [reflexivity|].
  assert (Hd : 0 < d2_real logistic 4)
    by (apply d2_real_pos; [exact logistic_bounds | lia]).
  rewrite std_within_fin by (simpl; lia || lra).
  change (windows 4 [1; 2; 3; 4; 5; 6; 7; 8])
    with [[1; 2; 3; 4]; [2; 3; 4; 5]; [3; 4; 5; 6]; [4; 5; 6; 7]; [5; 6; 7; 8]].
  cbn [map].
  replace (window_range [1; 2; 3; 4]) with 3 by eval_range.
  replace (window_range [2; 3; 4; 5]) with 3 by eval_range.
  replace (window_range [3; 4; 5; 6]) with 3 by eval_range.
  replace (window_range [4; 5; 6; 7]) with 3 by eval_range.
  replace (window_range [5; 6; 7; 8]) with 3 by eval_range.
  do 2 f_equal; unfold arith_mean; simpl; lra.
Qed.


Lemma calculate_d2_monotone_witness :
  (forall x, 0 < logistic x < 1)
  /\ (1 <= 2 <= 5)%nat
  /\ exists a b,
       calculate_d2 logistic 2 = Fin a /\ calculate_d2 logistic 5 = Fin b
       /\ a <= b.
Proof.
  split; [exact logistic_bounds|]; split; [lia|].
  apply (calculate_d2_monotone logistic logistic_bounds 2 5); lia.
Defined.

Lemma std_within_mean_range_witness :
  (forall x, 0 < logistic x < 1)
  /\ (2 <= 2 <= length [1; 2; 3]%R)%nat
  /\ exists d,
       calculate_d2 logistic 2 = Fin d /\ 0 < d
       /\ length (windows 2 [1; 2; 3]) = (length [1; 2; 3]%R - 2 + 1)%nat
       /\ std_within
            (calculate_process logistic (map Fin [1; 2; 3]) (Fin 0) (Fin 4) 2)
          = Fin (arith_mean (map window_range (windows 2 [1; 2; 3])) / d).
Proof.
  split; [exact logistic_bounds|]; split; [simpl; lia|].
  apply (std_within_mean_range logistic logistic_bounds [1; 2; 3]
           (Fin 0) (Fin 4) 2).
  simpl; lia.
Defined.

Lemma ppk_cpk_formulas_witness :
  mean (calculate_process logistic (map Fin [1; 2; 3]) (Fin 0) (Fin 4) 2)
  = Fin 2
  /\ std (calculate_process logistic (map Fin [1; 2; 3]) (Fin 0) (Fin 4) 2)
     = Fin 1
  /\ ppk (calculate_process logistic (map Fin [1; 2; 3]) (Fin 0) (Fin 4) 2)
     = Fin (Rmin ((4 - 2) / (3 * 1)) ((2 - 0) / (3 * 1))).
Proof.
  assert (Hm : mean (calculate_process logistic (map Fin [1; 2; 3])
                       (Fin 0) (Fin 4) 2) = Fin 2).
  { rewrite mean_eq, series_mean_fin by discriminate.
    now rewrite arith_mean_123. }
  assert (Hs : std (calculate_process logistic (map Fin [1; 2; 3])
                      (Fin 0) (Fin 4) 2) = Fin 1).
  { rewrite std_eq, series_std_fin by (simpl; lia).
    now rewrite sample_std_123. }
  split; [exact Hm|]; split; [exact Hs|].
  destruct (ppk_cpk_formulas logistic (map Fin [1; 2; 3]) (Fin 0) (Fin 4) 2)
    as [_ H].
  destruct (H 0 4 2 eq_refl eq_refl Hm) as [Hp _].
  apply (Hp 1 Hs); lra.
Defined.



(** The same failure with two equal samples: the deviation is [0] but the
    within-subgroup estimate is [nan]. *)
Lemma constant_pair_window_one :
  std (calculate_process logistic (map Fin [5; 5]) (Fin 0) (Fin 10) 1) = Fin 0
  /\ std_within
       (calculate_process logistic (map Fin [5; 5]) (Fin 0) (Fin 10) 1)
     = NaN.
Proof.
  split; [|apply std_within_window_one].
  rewrite std_eq, series_std_fin by (simpl; lia).
  rewrite (sample_std_const 5); [reflexivity | discriminate |].
  intros x [<- | [<- | []]]; reflexivity.
Qed.

Lemma short_series_nan_witness :
  (length (map Fin [1; 2]%R) < 8)%nat
  /\ rolling_max (rolling (map Fin [1; 2]) 8)
     = repeat NaN (length (map Fin [1; 2]))
  /\ rolling_min (rolling (map Fin [1; 2]) 8)
     = repeat NaN (length (map Fin [1; 2]))
  /\ std_within
       (calculate_process logistic (map Fin [1; 2]) (Fin 0) (Fin 4) 8) = NaN
  /\ cpk (calculate_process logistic (map Fin [1; 2]) (Fin 0) (Fin 4) 8) = NaN.
Proof.
  split; [simpl; lia|].
  apply (short_series_nan logistic (map Fin [1; 2]) (Fin 0) (Fin 4) 8).
  simpl; lia.
Defined.


Lemma p_value_mean_tail_witness :
  [0] <> []
  /\ 0 < 1
  /\ calculate_p_value logistic (Fin 0) (Fin 1) (map Fin [0])
     = Fin (arith_mean (map (two_sided_tail logistic 0 1) [0])).
Proof.
  split; [discriminate|]; split; [lra|].
  apply (p_value_mean_tail logistic 0 1 [0]); [discriminate | lra].
Defined.

Lemma calculate_d2_two_witness :
  (forall x, -20 <= x <= 20 -> derivable_pt_lim normal_cdf x (std_pdf x))
  /\ normal_cdf 0 = 1 / 2
  /\ exists d,
       calculate_d2 normal_cdf 2 = Fin d
       /\ Rabs (d - 2 / sqrt PI) <= 1 / 1000.
Proof.
  destruct normal_cdf_spec as [H0 Hd].
  split; [exact Hd|]; split; [exact H0|].
  apply (calculate_d2_two normal_cdf Hd H0).
Defined.

(* ------------------------------------------------------------------ *)
(** ** Instances of the further properties *)
(* ------------------------------------------------------------------ *)

Lemma logistic_zero : logistic 0 = 1 / 2.
Proof.
  unfold logistic; rewrite Ropp_0, exp_0.
  replace (1 + 1) with 2 by ring; lra.
Qed.

Lemma logistic_mirror (z : R) : logistic (- z) = 1 - logistic z.
Proof.
  unfold logistic; rewrite Ropp_involutive, exp_Ropp.
  pose proof (exp_pos z); field; split; lra.
Qed.


Lemma calculate_d2_strictly_increasing_witness :
  (forall x, 0 < logistic x < 1)
  /\ (2 < 8)%nat
  /\ exists a b,
       calculate_d2 logistic 2 = Fin a /\ calculate_d2 logistic 8 = Fin b
       /\ a < b.
Proof.
  split; [exact logistic_bounds|]; split; [lia|].
  apply (calculate_d2_strictly_increasing logistic logistic_bounds 2 8); lia.
Defined.

Lemma calculate_d2_bounded_witness :
  (forall x, 0 < logistic x < 1)
  /\ exists d, calculate_d2 logistic 8 = Fin d /\ -40 <= d < 40.
Proof.
  split; [exact logistic_bounds|].
  apply (calculate_d2_bounded logistic logistic_bounds 8).
Defined.

Lemma calculate_d2_table_witness :
  (forall x, -20 <= x <= 20 -> derivable_pt_lim normal_cdf x (std_pdf x))
  /\ normal_cdf 0 = 1 / 2
  /\ In (8%nat, 2847%Z) d2_table
  /\ exists d,
       calculate_d2 normal_cdf 8 = Fin d
       /\ Rabs (d - IZR 2847 / 1000) <= 1 / 1000.
Proof.
  destruct normal_cdf_spec as [H0 Hd].
  assert (Hin : In (8%nat, 2847%Z) d2_table)
    by (unfold d2_table; do 6 right; left; reflexivity).
  split; [exact Hd|]; split; [exact H0|]; split; [exact Hin|].
  apply (calculate_d2_table normal_cdf Hd H0 8 2847 Hin).
Defined.

Lemma few_observations_nan_witness :
  (length (dropna [Fin 5; NaN]) <= 1)%nat
  /\ std (calculate_process logistic [Fin 5; NaN] (Fin 0) (Fin 10) 2) = NaN
  /\ ppk (calculate_process logistic [Fin 5; NaN] (Fin 0) (Fin 10) 2) = NaN.
Proof.
  split; [simpl; lia|].
  apply (few_observations_nan logistic [Fin 5; NaN] (Fin 0) (Fin 10) 2).
  simpl; lia.
Defined.





Lemma std_within_moving_range_witness :
  (forall x, 0 < logistic x < 1)
  /\ (2 <= length [1; 2; 3]%R)%nat
  /\ exists d,
       calculate_d2 logistic 2 = Fin d /\ 0 < d
       /\ std_within
            (calculate_process logistic (map Fin [1; 2; 3]) (Fin 0) (Fin 4) 2)
          = Fin (arith_mean (moving_ranges [1; 2; 3]) / d).
Proof.
  split; [exact logistic_bounds|]; split; [simpl; lia|].
  apply (std_within_moving_range logistic logistic_bounds [1; 2; 3]
           (Fin 0) (Fin 4)).
  simpl; lia.
Defined.





Lemma scale_invariance_witness :
  (forall x, 0 < logistic x < 1)
  /\ 0 < 2
  /\ let r := calculate_process logistic (map Fin [1; 2; 3]) (Fin 0) (Fin 4) 2
     in let r' :=
          calculate_process logistic (map Fin (map (fun x => 2 * x) [1; 2; 3]))
                            (Fin (2 * 0)) (Fin (2 * 4)) 2
     in (ppk r' = ppk r /\ cpk r' = cpk r)
        /\ mean r' = (Fin 2 * mean r)%float
        /\ std r' = (Fin 2 * std r)%float
        /\ std_within r' = (Fin 2 * std_within r)%float
        /\ min r' = (Fin 2 * min r)%float
        /\ max r' = (Fin 2 * max r)%float.
Proof.
  split; [exact logistic_bounds|]; split; [lra|].
  apply (scale_invariance logistic logistic_bounds [1; 2; 3] 0 4 2 2); lra.
Defined.

Lemma p_value_bad_deviation_witness :
  flt (Fin 0) (Fin 0) = false
  /\ [Fin 1] <> []
  /\ calculate_p_value logistic (Fin 1) (Fin 0) [Fin 1] = NaN.
Proof.
  split; [exact (Rltb_irrefl 0)|]; split; [discriminate|].
  apply (p_value_bad_deviation logistic (Fin 1) (Fin 0) [Fin 1]);
    [exact (Rltb_irrefl 0) | discriminate].
Defined.


Lemma p_value_at_mean_witness :
  logistic 0 = 1 / 2
  /\ 0 < 2
  /\ [3; 3] <> []
  /\ (forall x, In x [3; 3] -> x = 3)
  /\ calculate_p_value logistic (Fin 3) (Fin 2) (map Fin [3; 3]) = Fin 1.
Proof.
  assert (H3 : forall x, In x [3; 3] -> x = 3)
    by (intros x [<- | [<- | []]]; reflexivity).
  split; [exact logistic_zero|]; split; [lra|]; split; [discriminate|].
  split; [exact H3|].
  apply (p_value_at_mean logistic 3 2 [3; 3] logistic_zero);
    [lra | discriminate | exact H3].
Defined.

Lemma p_value_mirror_witness :
  (forall z, logistic (- z) = 1 - logistic z)
  /\ 0 < 2
  /\ calculate_p_value logistic (Fin 3) (Fin 2)
                       (map Fin (map (fun x => 2 * 3 - x) [1; 4]))
     = calculate_p_value logistic (Fin 3) (Fin 2) (map Fin [1; 4]).
Proof.
  split; [exact logistic_mirror|]; split; [lra|].
  apply (p_value_mirror logistic 3 2 [1; 4] logistic_mirror); lra.
Defined.

Lemma p_value_permutation_witness :
  0 < 2
  /\ Permutation [1; 4] [4; 1]
  /\ calculate_p_value logistic (Fin 3) (Fin 2) (map Fin [1; 4])
     = calculate_p_value logistic (Fin 3) (Fin 2) (map Fin [4; 1]).
Proof.
  split; [lra|]; split; [apply perm_swap|].
  apply (p_value_permutation logistic 3 2 [1; 4] [4; 1]);
    [lra | apply perm_swap].
Defined.

Lemma p_value_pooled_witness :
  0 < 2
  /\ [1] <> [] /\ [4; 5] <> []
  /\ exists a b,
       calculate_p_value logistic (Fin 3) (Fin 2) (map Fin [1]) = Fin a
       /\ calculate_p_value logistic (Fin 3) (Fin 2) (map Fin [4; 5]) = Fin b
       /\ calculate_p_value logistic (Fin 3) (Fin 2) (map Fin ([1] ++ [4; 5]))
          = Fin ((INR (length [1]%R) * a + INR (length [4; 5]%R) * b)
                 / INR (length [1]%R + length [4; 5]%R)).
Proof.
  split; [lra|]; split; [discriminate|]; split; [discriminate|].
  apply (p_value_pooled logistic 3 2 [1] [4; 5]);
    [lra | discriminate | discriminate].
Defined.

